(** * Transaction validation of iota.go: a shallow embedding

    The development follows [transaction.go] and [transaction_essence.go].
    Unsigned machine integers are integers of [Z] with the wrap-around of
    the Go arithmetic written out; Go maps are finite maps ([gmap]); a Go
    function returning [error] returns a [result]; a run-time panic (nil
    dereference, failed type assertion, index out of range) is the
    outcome [Panic]. *)

From Stdlib Require Import ZArith List Lia.
From stdpp Require Import base numbers option list gmap fin_maps.

Local Open Scope Z_scope.

(** ** Machine integers *)

Definition u16 (x : Z) : Z := x mod 2 ^ 16.
Definition u64 (x : Z) : Z := x mod 2 ^ 64.

(** [a + b] on [uint64]: Go wraps around silently. *)
Definition u64_add (a b : Z) : Z := u64 (a + b).

Definition MaxUint256 : Z := 2 ^ 256 - 1.

(** ** Errors and results *)

Inductive error : Type :=
| ErrMissingUTXO
| ErrInputOutputSumMismatch
| ErrSignatureAndAddrIncompatible
| ErrInvalidInputUnlock
| ErrSenderFeatureBlockNotUnlocked
| ErrIssuerFeatureBlockNotUnlocked
| ErrReturnAmountNotFulFilled
| ErrTypeIsNotSupportedEssence
| ErrMissingDeSerializationParas
| ErrMinInputsNotReached
| ErrMinOutputsNotReached
| ErrInputUTXORefsNotUnique
| ErrRefUTXOIndexInvalid
| ErrOutputRequiresSenderFeatureBlock
| ErrFoundryOutputInvalidMaximumSupply
| ErrFoundryOutputInvalidCirculatingSupply
| ErrOutputsSumExceedsTotalSupply
| ErrOutputDepositsMoreThanTotalSupply
| ErrDepositAmountMustBeGreaterThanZero
| ErrOutputsExceedMaxNativeTokensCount
| ErrNativeTokenSumUnbalanced
| ErrNativeTokenSumExceedsUint256
| ErrNonUniqueFeatureBlocks
| ErrArrayValidationMinElementsNotReached
| ErrArrayValidationMaxElementsExceeded
| ErrArrayValidationViolatesUniqueness
| ErrInvalidBytes
| ErrSliceLengthTooLong
| ErrElement (code : Z).

Inductive result (A : Type) : Type :=
| Ok (a : A)
| Err (e : error)
| Panic.

Arguments Ok {A} a.
Arguments Err {A} e.
Arguments Panic {A}.

Definition rbind {A B : Type} (r : result A) (k : A -> result B) : result B :=
  match r with
  | Ok a => k a
  | Err e => Err e
  | Panic => Panic
  end.

#[global] Instance result_ret : MRet result := fun _ a => Ok a.
#[global] Instance result_bind : MBind result := fun _ _ k r => rbind r k.

(** ** Identifiers and addresses

    Fixed-width byte arrays (transaction ids, chain ids, address hashes)
    are the numbers their bytes spell, most significant byte first. *)

Abbreviation TransactionID := Z (only parsing).
Abbreviation OutputID := (Z * Z)%type (only parsing).
Abbreviation AliasID := Z (only parsing).
Abbreviation NFTID := Z (only parsing).
Abbreviation FoundryID := Z (only parsing).
Abbreviation NativeTokenID := Z (only parsing).
Abbreviation AddressKey := (Z * Z)%type (only parsing).

Inductive Address : Type :=
| Ed25519Address (hash : Z)
| AliasAddress (id : AliasID)
| NFTAddress (id : NFTID).

#[global] Instance Address_eq_dec : EqDecision Address.
Proof. solve_decision. Defined.

Definition AddressEd25519 : Z := 0.
Definition AddressAlias : Z := 8.
Definition AddressNFT : Z := 16.

Definition Address_Type (a : Address) : Z :=
  match a with
  | Ed25519Address _ => AddressEd25519
  | AliasAddress _ => AddressAlias
  | NFTAddress _ => AddressNFT
  end.

(** Modelled from the spec: [Address.Key()] is missing from the sources;
    "address equality is byte-structural", and the key is the address in
    its encoded form: the type byte followed by the address bytes. *)
Definition Address_Key (a : Address) : AddressKey :=
  match a with
  | Ed25519Address h => (AddressEd25519, h)
  | AliasAddress id => (AddressAlias, id)
  | NFTAddress id => (AddressNFT, id)
  end.

(** The two address capabilities [unlockOutput] dispatches on. *)
Definition isChainConstrainedAddress (a : Address) : bool :=
  match a with
  | Ed25519Address _ => false
  | AliasAddress _ | NFTAddress _ => true
  end.

Inductive ChainID : Type :=
| ChainAlias (id : AliasID)
| ChainNFT (id : NFTID)
| ChainFoundry (id : FoundryID).

#[global] Instance ChainID_eq_dec : EqDecision ChainID.
Proof. solve_decision. Defined.

#[global] Instance ChainID_countable : Countable ChainID.
Proof.
  refine (inj_countable'
    (fun c => match c with
              | ChainAlias i => (0, i)
              | ChainNFT i => (1, i)
              | ChainFoundry i => (2, i)
              end)
    (fun p => match p with
              | (0, i) => ChainAlias i
              | (1, i) => ChainNFT i
              | (_, i) => ChainFoundry i
              end) _).
  intros []; reflexivity.
Defined.

Definition ChainID_Addressable (c : ChainID) : bool :=
  match c with
  | ChainAlias _ | ChainNFT _ => true
  | ChainFoundry _ => false
  end.

Definition ChainID_ToAddress (c : ChainID) : result Address :=
  match c with
  | ChainAlias i => Ok (AliasAddress i)
  | ChainNFT i => Ok (NFTAddress i)
  | ChainFoundry _ => Panic
  end.

(** ** Feature blocks *)

Inductive FeatureBlock : Type :=
| SenderFeatureBlock (address : Address)
| IssuerFeatureBlock (address : Address)
| DustDepositReturnFeatureBlock (amount : Z)
| TimelockMilestoneIndexFeatureBlock (milestoneIndex : Z)
| TimelockUnixFeatureBlock (unixTime : Z)
| ExpirationMilestoneIndexFeatureBlock (milestoneIndex : Z)
| ExpirationUnixFeatureBlock (unixTime : Z)
| MetadataFeatureBlock (data : list Z)
| IndexationFeatureBlock (tag : list Z).

Definition FeatureBlockSender : Z := 0.
Definition FeatureBlockIssuer : Z := 1.
Definition FeatureBlockDustDepositReturn : Z := 2.
Definition FeatureBlockTimelockMilestoneIndex : Z := 3.
Definition FeatureBlockTimelockUnix : Z := 4.
Definition FeatureBlockExpirationMilestoneIndex : Z := 5.
Definition FeatureBlockExpirationUnix : Z := 6.
Definition FeatureBlockMetadata : Z := 7.
Definition FeatureBlockIndexation : Z := 8.

Definition FeatureBlock_Type (fb : FeatureBlock) : Z :=
  match fb with
  | SenderFeatureBlock _ => FeatureBlockSender
  | IssuerFeatureBlock _ => FeatureBlockIssuer
  | DustDepositReturnFeatureBlock _ => FeatureBlockDustDepositReturn
  | TimelockMilestoneIndexFeatureBlock _ => FeatureBlockTimelockMilestoneIndex
  | TimelockUnixFeatureBlock _ => FeatureBlockTimelockUnix
  | ExpirationMilestoneIndexFeatureBlock _ => FeatureBlockExpirationMilestoneIndex
  | ExpirationUnixFeatureBlock _ => FeatureBlockExpirationUnix
  | MetadataFeatureBlock _ => FeatureBlockMetadata
  | IndexationFeatureBlock _ => FeatureBlockIndexation
  end.

(** Modelled from the spec: [FeatureBlocks.Set()] is missing from the
    sources; "within a single output, each feature-block kind appears at
    most once", so the set is the map from kind to block and a repeated
    kind is an error. *)
Fixpoint FeatureBlocks_Set_from (set : gmap Z FeatureBlock)
    (blocks : list FeatureBlock) : result (gmap Z FeatureBlock) :=
  match blocks with
  | [] => Ok set
  | block :: rest =>
      match set !! FeatureBlock_Type block with
      | Some _ => Err ErrNonUniqueFeatureBlocks
      | None => FeatureBlocks_Set_from (<[FeatureBlock_Type block := block]> set) rest
      end
  end.

Definition FeatureBlocks_Set (blocks : list FeatureBlock) : result (gmap Z FeatureBlock) :=
  FeatureBlocks_Set_from ∅ blocks.

(** ** Native tokens and outputs *)

Record NativeToken : Type := mkNativeToken {
  nt_ID : NativeTokenID;
  nt_Amount : Z
}.

Record SimpleOutput : Type := mkSimpleOutput {
  so_Address : Address;
  so_Amount : Z
}.

Record ExtendedOutput : Type := mkExtendedOutput {
  eo_Address : Address;
  eo_Amount : Z;
  eo_NativeTokens : list NativeToken;
  eo_Blocks : list FeatureBlock
}.

Record AliasOutput : Type := mkAliasOutput {
  ao_Amount : Z;
  ao_NativeTokens : list NativeToken;
  ao_AliasID : AliasID;
  ao_StateController : Address;
  ao_GovernanceController : Address;
  ao_StateIndex : Z;
  ao_FoundryCounter : Z;
  ao_Blocks : list FeatureBlock
}.

Record FoundryOutput : Type := mkFoundryOutput {
  fo_Address : Address;
  fo_Amount : Z;
  fo_NativeTokens : list NativeToken;
  fo_FoundryID : FoundryID;
  fo_CirculatingSupply : Z;
  fo_MaximumSupply : Z;
  fo_Blocks : list FeatureBlock
}.

Record NFTOutput : Type := mkNFTOutput {
  no_Address : Address;
  no_Amount : Z;
  no_NativeTokens : list NativeToken;
  no_NFTID : NFTID;
  no_Blocks : list FeatureBlock
}.

Inductive Output : Type :=
| OSimple (o : SimpleOutput)
| OExtended (o : ExtendedOutput)
| OAlias (o : AliasOutput)
| OFoundry (o : FoundryOutput)
| ONFT (o : NFTOutput).

Definition OutputSimple : Z := 0.
Definition OutputExtended : Z := 3.
Definition OutputAlias : Z := 4.
Definition OutputFoundry : Z := 5.
Definition OutputNFT : Z := 6.

Definition Output_Type (o : Output) : Z :=
  match o with
  | OSimple _ => OutputSimple
  | OExtended _ => OutputExtended
  | OAlias _ => OutputAlias
  | OFoundry _ => OutputFoundry
  | ONFT _ => OutputNFT
  end.

Definition Output_Deposit (o : Output) : Z :=
  match o with
  | OSimple s => so_Amount s
  | OExtended e => eo_Amount e
  | OAlias a => ao_Amount a
  | OFoundry f => fo_Amount f
  | ONFT n => no_Amount n
  end.

(** The type assertion [output.(FeatureBlockOutput)] and, when it holds,
    [FeatureBlocks()]: every variant but the simple output carries blocks. *)
Definition Output_FeatureBlocks (o : Output) : option (list FeatureBlock) :=
  match o with
  | OSimple _ => None
  | OExtended e => Some (eo_Blocks e)
  | OAlias a => Some (ao_Blocks a)
  | OFoundry f => Some (fo_Blocks f)
  | ONFT n => Some (no_Blocks n)
  end.

(** The type assertion [output.(NativeTokenOutput)] with [NativeTokenSet()]. *)
Definition Output_NativeTokens (o : Output) : option (list NativeToken) :=
  match o with
  | OSimple _ => None
  | OExtended e => Some (eo_NativeTokens e)
  | OAlias a => Some (ao_NativeTokens a)
  | OFoundry f => Some (fo_NativeTokens f)
  | ONFT n => Some (no_NativeTokens n)
  end.

(** The type assertion [output.(ChainConstrainedOutput)] with [Chain()]. *)
Definition Output_Chain (o : Output) : option ChainID :=
  match o with
  | OSimple _ | OExtended _ => None
  | OAlias a => Some (ChainAlias (ao_AliasID a))
  | OFoundry f => Some (ChainFoundry (fo_FoundryID f))
  | ONFT n => Some (ChainNFT (no_NFTID n))
  end.

(** Modelled from the spec: [Ident()] of a [SingleIdentOutput] is missing
    from the sources; "for SingleIdentOutput, the identity is the output's
    stated owner".  The alias output is the only [MultiIdentOutput]. *)
Definition Output_Ident (o : Output) : option Address :=
  match o with
  | OSimple s => Some (so_Address s)
  | OExtended e => Some (eo_Address e)
  | OAlias _ => None
  | OFoundry f => Some (fo_Address f)
  | ONFT n => Some (no_Address n)
  end.

(** ** Inputs, unlock blocks, essence and transaction *)

Inductive Input : Type :=
| UTXOInput (transactionID : TransactionID) (transactionOutputIndex : Z).

(** [input.(IndexedUTXOReferencer).Ref()] *)
Definition Input_Ref (i : Input) : OutputID :=
  match i with
  | UTXOInput txid idx => (txid, idx)
  end.

Record Signature : Type := mkSignature {
  sig_PublicKey : Z;
  sig_Signature : Z
}.

Inductive UnlockBlock : Type :=
| SignatureUnlockBlock (signature : Signature)
| ReferenceUnlockBlock (reference : Z)
| AliasUnlockBlock (reference : Z)
| NFTUnlockBlock (reference : Z).

(** The type assertion [unlockBlock.(ReferentialUnlockBlock)] with [Ref()]. *)
Definition UnlockBlock_Ref (u : UnlockBlock) : option Z :=
  match u with
  | SignatureUnlockBlock _ => None
  | ReferenceUnlockBlock r | AliasUnlockBlock r | NFTUnlockBlock r => Some r
  end.

(** Modelled from the spec: [Chainable()] and [SourceAllowed()] of the
    referential unlock blocks are missing from the sources; the alias and
    NFT unlocks are the chainable ones, a plain reference unlock is not,
    and "source-allowance passes for the target address kind": an alias
    unlock serves an alias address, an NFT unlock an NFT address, a
    reference unlock an address that is not chain constrained. *)
Definition UnlockBlock_Chainable (u : UnlockBlock) : bool :=
  match u with
  | AliasUnlockBlock _ | NFTUnlockBlock _ => true
  | _ => false
  end.

Definition UnlockBlock_SourceAllowed (u : UnlockBlock) (a : Address) : bool :=
  match u, a with
  | ReferenceUnlockBlock _, Ed25519Address _ => true
  | AliasUnlockBlock _, AliasAddress _ => true
  | NFTUnlockBlock _, NFTAddress _ => true
  | _, _ => false
  end.

Inductive Payload : Type :=
| Indexation (index : list Z) (data : list Z)
| OtherPayload (payloadType : Z) (data : list Z).

Record TransactionEssence : Type := mkTransactionEssence {
  Inputs : list Input;
  Outputs : list Output;
  Payload_ : option Payload
}.

(** [Essence] is a pointer in the source: [None] is the nil pointer. *)
Record Transaction : Type := mkTransaction {
  Essence : option TransactionEssence;
  UnlockBlocks : list UnlockBlock
}.

(** Dereferencing [t.Essence]. *)
Definition Transaction_essence (t : Transaction) : result TransactionEssence :=
  match Essence t with
  | Some e => Ok e
  | None => Panic
  end.

(** ** The semantic validation context *)

Record SemValiContextWorkingSet : Type := mkWorkingSet {
  UnlockedIdents : gmap (Z * Z) Z;
  InputSet : gmap (Z * Z) Output;
  Tx : Transaction;
  EssenceMsgToSign : Z;
  InputsByType : gmap Z (list Output);
  InChains : gmap ChainID Output;
  InNativeTokens : gmap Z Z;
  OutputsByType : gmap Z (list Output);
  OutChains : gmap ChainID Output;
  OutNativeTokens : gmap Z Z
}.

Record SemanticValidationContext : Type := mkSemanticValidationContext {
  ConfirmingMilestoneIndex : Z;
  ConfirmingMilestoneUnix : Z;
  WorkingSet : SemValiContextWorkingSet
}.

Definition with_UnlockedIdents (u : gmap (Z * Z) Z)
    (svCtx : SemanticValidationContext) : SemanticValidationContext :=
  let ws := WorkingSet svCtx in
  mkSemanticValidationContext (ConfirmingMilestoneIndex svCtx) (ConfirmingMilestoneUnix svCtx)
    (mkWorkingSet u (InputSet ws) (Tx ws) (EssenceMsgToSign ws) (InputsByType ws)
       (InChains ws) (InNativeTokens ws) (OutputsByType ws) (OutChains ws)
       (OutNativeTokens ws)).

Definition with_InputSet (inputs : gmap (Z * Z) Output)
    (svCtx : SemanticValidationContext) : SemanticValidationContext :=
  let ws := WorkingSet svCtx in
  mkSemanticValidationContext (ConfirmingMilestoneIndex svCtx) (ConfirmingMilestoneUnix svCtx)
    (mkWorkingSet (UnlockedIdents ws) inputs (Tx ws) (EssenceMsgToSign ws)
       (InputsByType ws) (InChains ws) (InNativeTokens ws) (OutputsByType ws)
       (OutChains ws) (OutNativeTokens ws)).

Definition with_InNativeTokens (s : gmap Z Z)
    (svCtx : SemanticValidationContext) : SemanticValidationContext :=
  let ws := WorkingSet svCtx in
  mkSemanticValidationContext (ConfirmingMilestoneIndex svCtx) (ConfirmingMilestoneUnix svCtx)
    (mkWorkingSet (UnlockedIdents ws) (InputSet ws) (Tx ws) (EssenceMsgToSign ws)
       (InputsByType ws) (InChains ws) s (OutputsByType ws) (OutChains ws)
       (OutNativeTokens ws)).

Definition with_OutNativeTokens (s : gmap Z Z)
    (svCtx : SemanticValidationContext) : SemanticValidationContext :=
  let ws := WorkingSet svCtx in
  mkSemanticValidationContext (ConfirmingMilestoneIndex svCtx) (ConfirmingMilestoneUnix svCtx)
    (mkWorkingSet (UnlockedIdents ws) (InputSet ws) (Tx ws) (EssenceMsgToSign ws)
       (InputsByType ws) (InChains ws) (InNativeTokens ws) (OutputsByType ws)
       (OutChains ws) s).

(** ** TxSemanticTimelock

    The source ranges over the [InputSet] map; the order of a Go map range
    is unspecified, the model takes the entries in the order of
    [map_to_list].  The verdict does not depend on the order: the only
    error of the loop is [ErrInvalidInputUnlock]. *)

Definition timelockBlock (svCtx : SemanticValidationContext) (featureBlock : FeatureBlock)
    : result unit :=
  match featureBlock with
  | TimelockMilestoneIndexFeatureBlock milestoneIndex =>
      if ConfirmingMilestoneIndex svCtx <? milestoneIndex
      then Err ErrInvalidInputUnlock else Ok tt
  | TimelockUnixFeatureBlock unixTime =>
      if ConfirmingMilestoneUnix svCtx <? unixTime
      then Err ErrInvalidInputUnlock else Ok tt
  | _ => Ok tt
  end.

Fixpoint timelockBlocks (svCtx : SemanticValidationContext) (blocks : list FeatureBlock)
    : result unit :=
  match blocks with
  | [] => Ok tt
  | featureBlock :: rest =>
      match timelockBlock svCtx featureBlock with
      | Ok _ => timelockBlocks svCtx rest
      | r => r
      end
  end.

Definition timelockInput (svCtx : SemanticValidationContext) (input : Output) : result unit :=
  match Output_FeatureBlocks input with
  | None => Ok tt
  | Some blocks => timelockBlocks svCtx blocks
  end.

Fixpoint timelockRange (svCtx : SemanticValidationContext)
    (entries : list (Z * Z * Output)) : result unit :=
  match entries with
  | [] => Ok tt
  | (_, input) :: rest =>
      match timelockInput svCtx input with
      | Ok _ => timelockRange svCtx rest
      | r => r
      end
  end.

Definition TxSemanticTimelock (svCtx : SemanticValidationContext) : result unit :=
  timelockRange svCtx (map_to_list (InputSet (WorkingSet svCtx))).

(** ** TxSemanticDeposit *)

(** [m[k] += v] on a [map[string]uint64]: a missing key reads as zero. *)
Definition map_add_u64 (k : Z * Z) (v : Z) (m : gmap (Z * Z) Z) : gmap (Z * Z) Z :=
  <[k := u64_add (default 0 (m !! k)) v]> m.

(** The body of the loop over the input set: the state is the running sum
    [in] and [inputSumReturnAmountPerIdent]. *)
Definition depositInput (input : Output) (st : Z * gmap (Z * Z) Z)
    : result (Z * gmap (Z * Z) Z) :=
  let in_ := u64_add (fst st) (Output_Deposit input) in
  match Output_FeatureBlocks input with
  | None => Ok (in_, snd st)
  | Some blocks =>
      featBlockSet ← FeatureBlocks_Set blocks;
      match featBlockSet !! FeatureBlockDustDepositReturn with
      | None => Ok (in_, snd st)
      | Some returnFeatBlock =>
          match featBlockSet !! FeatureBlockSender with
          | Some (SenderFeatureBlock address) =>
              match returnFeatBlock with
              | DustDepositReturnFeatureBlock amount =>
                  Ok (in_, map_add_u64 (Address_Key address) amount (snd st))
              | _ => Panic
              end
          | _ => Panic
          end
      end
  end.

Fixpoint depositInputs (entries : list (Z * Z * Output)) (st : Z * gmap (Z * Z) Z)
    : result (Z * gmap (Z * Z) Z) :=
  match entries with
  | [] => Ok st
  | (_, input) :: rest =>
      match depositInput input st with
      | Ok st' => depositInputs rest st'
      | r => r
      end
  end.

(** The body of the loop over the outputs: the state is the running sum
    [out] and [outputSimpleTransfersPerIdent]. *)
Definition depositOutput (output : Output) (st : Z * gmap (Z * Z) Z)
    : Z * gmap (Z * Z) Z :=
  let outDeposit := Output_Deposit output in
  let out := u64_add (fst st) outDeposit in
  match output with
  | OSimple outputTy => (out, map_add_u64 (Address_Key (so_Address outputTy)) outDeposit (snd st))
  | OExtended outputTy =>
      if (0 <? Z.of_nat (length (eo_Blocks outputTy)))
      then (out, snd st)
      else (out, map_add_u64 (Address_Key (eo_Address outputTy)) outDeposit (snd st))
  | _ => (out, snd st)
  end.

Fixpoint depositOutputs (outputs : list Output) (st : Z * gmap (Z * Z) Z)
    : Z * gmap (Z * Z) Z :=
  match outputs with
  | [] => st
  | output :: rest => depositOutputs rest (depositOutput output st)
  end.

(** The final loop over [inputSumReturnAmountPerIdent]. *)
Fixpoint depositReturns (outputSimpleTransfersPerIdent : gmap (Z * Z) Z)
    (entries : list (Z * Z * Z)) : result unit :=
  match entries with
  | [] => Ok tt
  | (ident, returnSum) :: rest =>
      match outputSimpleTransfersPerIdent !! ident with
      | None => Err ErrReturnAmountNotFulFilled
      | Some outSum =>
          if outSum <? returnSum then Err ErrReturnAmountNotFulFilled
          else depositReturns outputSimpleTransfersPerIdent rest
      end
  end.

Definition TxSemanticDeposit (svCtx : SemanticValidationContext) : result unit :=
  ins ← depositInputs (map_to_list (InputSet (WorkingSet svCtx))) (0, ∅);
  essence ← Transaction_essence (Tx (WorkingSet svCtx));
  let outs := depositOutputs (Outputs essence) (0, ∅) in
  if decide (fst ins = fst outs) then depositReturns (snd outs) (map_to_list (snd ins))
  else Err ErrInputOutputSumMismatch.

(** ** Native token sums and TxSemanticNativeTokens *)

(** Modelled from the spec: [ToOutputsByType()] is missing from the
    sources; the working set holds "the inputs of the transaction mapped
    by type", each type mapped to its outputs in their order. *)
Definition Outputs_ToOutputsByType (outputs : list Output) : gmap Z (list Output) :=
  foldl (fun m output =>
           <[Output_Type output := default [] (m !! Output_Type output) ++ [output]]> m)
        ∅ outputs.

(** The closure of [NewSemValiContextWorkingSet] that copies the values of
    the input set into a slice and maps them by type. *)
Definition InputSet_ToOutputsByType (inputs : gmap (Z * Z) Output) : gmap Z (list Output) :=
  Outputs_ToOutputsByType (map snd (map_to_list inputs)).

(** Modelled from the spec: [OutputsByType.NativeTokenOutputs()] is missing
    from the sources; it collects the outputs that can hold native tokens
    (every variant but the simple output). *)
Definition OutputsByType_NativeTokenOutputs (byType : gmap Z (list Output))
    : list (list NativeToken) :=
  flat_map (fun entry => omap Output_NativeTokens (snd entry)) (map_to_list byType).

(** Modelled from the spec: [NativeTokenOutputs.Sum()] is missing from the
    sources; "across a transaction side the per-token-id amounts sum into a
    u256 with overflow detection". *)
Fixpoint NativeTokens_sum_into (sum : gmap Z Z) (tokens : list NativeToken)
    : result (gmap Z Z) :=
  match tokens with
  | [] => Ok sum
  | nativeToken :: rest =>
      let val := default 0 (sum !! nt_ID nativeToken) + nt_Amount nativeToken in
      if MaxUint256 <? val then Err ErrNativeTokenSumExceedsUint256
      else NativeTokens_sum_into (<[nt_ID nativeToken := val]> sum) rest
  end.

Fixpoint NativeTokenOutputs_Sum_into (sum : gmap Z Z) (ntOutputs : list (list NativeToken))
    : result (gmap Z Z) :=
  match ntOutputs with
  | [] => Ok sum
  | tokens :: rest =>
      sum' ← NativeTokens_sum_into sum tokens;
      NativeTokenOutputs_Sum_into sum' rest
  end.

Definition NativeTokenOutputs_Sum (ntOutputs : list (list NativeToken)) : result (gmap Z Z) :=
  NativeTokenOutputs_Sum_into ∅ ntOutputs.

(** Modelled from the spec: [NativeTokenSum.Balanced()] is missing from the
    sources; "the two maps must be equal", and a difference is
    [NativeTokenSumUnbalanced]. *)
Definition NativeTokenSum_Balanced (nts other : gmap Z Z) : result unit :=
  if decide (nts = other) then Ok tt else Err ErrNativeTokenSumUnbalanced.

(** [NativeTokenID.FoundryID()]: the token id is the 26 bytes of the foundry
    id followed by the 12 bytes of the token tag. *)
Definition NativeTokenID_FoundryID (id : NativeTokenID) : FoundryID := id / 2 ^ 96.

(** One of the two loops of the foundry route: every token of [entries]
    whose sum is missing from, or differs in, [other] needs its foundry
    among the output chains. *)
Fixpoint nativeTokensRange (other : gmap Z Z) (outChains : gmap ChainID Output)
    (entries : list (Z * Z)) : result unit :=
  match entries with
  | [] => Ok tt
  | (nativeTokenID, sum) :: rest =>
      let unbalanced :=
        match other !! nativeTokenID with
        | None => true
        | Some otherSum => negb (sum =? otherSum)
        end in
      if unbalanced then
        match outChains !! ChainFoundry (NativeTokenID_FoundryID nativeTokenID) with
        | None => Err ErrNativeTokenSumUnbalanced
        | Some _ => nativeTokensRange other outChains rest
        end
      else nativeTokensRange other outChains rest
  end.

(** [m[OutputFoundry] == nil] *)
Definition noFoundry (byType : gmap Z (list Output)) : bool :=
  match byType !! OutputFoundry with
  | None | Some [] => true
  | Some (_ :: _) => false
  end.

(** The step stores both sums in the working set, so it returns the
    context next to its verdict.  Both sums are taken from
    [InputsByType], as in the source. *)
Definition TxSemanticNativeTokens (svCtx : SemanticValidationContext)
    : result unit * SemanticValidationContext :=
  match NativeTokenOutputs_Sum
          (OutputsByType_NativeTokenOutputs (InputsByType (WorkingSet svCtx))) with
  | Err e => (Err e, with_InNativeTokens ∅ svCtx)
  | Panic => (Panic, svCtx)
  | Ok inSum =>
      let svCtx := with_InNativeTokens inSum svCtx in
      match NativeTokenOutputs_Sum
              (OutputsByType_NativeTokenOutputs (InputsByType (WorkingSet svCtx))) with
      | Err e => (Err e, with_OutNativeTokens ∅ svCtx)
      | Panic => (Panic, svCtx)
      | Ok outSum =>
          let svCtx := with_OutNativeTokens outSum svCtx in
          let ws := WorkingSet svCtx in
          if noFoundry (OutputsByType ws) && noFoundry (InputsByType ws) then
            (NativeTokenSum_Balanced (InNativeTokens ws) (OutNativeTokens ws), svCtx)
          else
            (nativeTokensRange (OutNativeTokens ws) (OutChains ws)
               (map_to_list (InNativeTokens ws));;
             nativeTokensRange (InNativeTokens ws) (OutChains ws)
               (map_to_list (OutNativeTokens ws)), svCtx)
      end
  end.

(** The step as the specification words it: the output-side sum is taken
    from the transaction's outputs.  Only the verdict is needed. *)
Definition NativeTokens_spec (svCtx : SemanticValidationContext) : result unit :=
  let ws := WorkingSet svCtx in
  inSum ← NativeTokenOutputs_Sum (OutputsByType_NativeTokenOutputs (InputsByType ws));
  outSum ← NativeTokenOutputs_Sum (OutputsByType_NativeTokenOutputs (OutputsByType ws));
  if noFoundry (OutputsByType ws) && noFoundry (InputsByType ws) then
    NativeTokenSum_Balanced inSum outSum
  else
    nativeTokensRange outSum (OutChains ws) (map_to_list inSum);;
    nativeTokensRange inSum (OutChains ws) (map_to_list outSum).

(** ** Unlock resolution

    The cryptographic collaborators are parameters: the Blake2b-256 hash,
    the derivation of an alias id from an output id, and the
    [Unlock(message, signature)] capability of an address ([None] is Go's
    nil error). *)

Class Capabilities : Type := mkCapabilities {
  blake2b_Sum256 : list Z -> Z;
  AliasIDFromOutputID : Z * Z -> AliasID;
  Address_Unlock : Address -> Z -> Signature -> option error
}.

Definition AliasID_Empty (id : AliasID) : bool := id =? 0.

Section Unlocks.
Context `{Capabilities}.

Definition identToUnlockFromMultiIdentOutput (svCtx : SemanticValidationContext)
    (inputAliasOutput : AliasOutput) (inputIndex : nat) : result Address :=
  aliasID ←
    (if AliasID_Empty (ao_AliasID inputAliasOutput) then
       essence ← Transaction_essence (Tx (WorkingSet svCtx));
       match (Inputs essence : list Input) !! inputIndex with
       | Some input => Ok (AliasIDFromOutputID (Input_Ref input))
       | None => Panic
       end
     else Ok (ao_AliasID inputAliasOutput));
  match OutChains (WorkingSet svCtx) !! ChainAlias aliasID with
  | None => Ok (ao_GovernanceController inputAliasOutput)
  | Some (OAlias outputAliasOutput) =>
      if ao_StateIndex inputAliasOutput =? ao_StateIndex outputAliasOutput
      then Ok (ao_GovernanceController inputAliasOutput)
      else Ok (ao_StateController inputAliasOutput)
  | Some _ => Panic
  end.

Definition identToUnlock (svCtx : SemanticValidationContext) (input : Output)
    (inputIndex : nat) : result Address :=
  match input with
  | OAlias a => identToUnlockFromMultiIdentOutput svCtx a inputIndex
  | _ =>
      match Output_Ident input with
      | Some ident => Ok ident
      | None => Panic
      end
  end.

Definition checkSenderFeatureBlockIdentUnlock (svCtx : SemanticValidationContext)
    (output : Output) : result (option Address) :=
  match Output_FeatureBlocks output with
  | None => Ok None
  | Some blocks =>
      featBlockSet ← FeatureBlocks_Set blocks;
      let featBlockExpMsIndex := featBlockSet !! FeatureBlockExpirationMilestoneIndex in
      let featBlockExpUnix := featBlockSet !! FeatureBlockExpirationUnix in
      match featBlockExpMsIndex, featBlockExpUnix with
      | None, None => Ok None
      | _, _ =>
          match featBlockSet !! FeatureBlockSender with
          | Some (SenderFeatureBlock address) =>
              match featBlockExpMsIndex, featBlockExpUnix with
              | Some (ExpirationMilestoneIndexFeatureBlock milestoneIndex),
                Some (ExpirationUnixFeatureBlock unixTime) =>
                  if (milestoneIndex <=? ConfirmingMilestoneIndex svCtx)
                     && (unixTime <=? ConfirmingMilestoneUnix svCtx)
                  then Ok (Some address) else Ok None
              | Some (ExpirationMilestoneIndexFeatureBlock milestoneIndex), None =>
                  if milestoneIndex <=? ConfirmingMilestoneIndex svCtx
                  then Ok (Some address) else Ok None
              | None, Some (ExpirationUnixFeatureBlock unixTime) =>
                  if unixTime <=? ConfirmingMilestoneUnix svCtx
                  then Ok (Some address) else Ok None
              | _, _ => Panic
              end
          | _ => Panic
          end
      end
  end.

(** The first part of [unlockOutput]: the target identity, after the
    override by an expired expiration feature block. *)
Definition targetIdentOf (svCtx : SemanticValidationContext) (output : Output)
    (inputIndex : nat) : result Address :=
  targetIdent ← identToUnlock svCtx output inputIndex;
  actualIdentToUnlock ← checkSenderFeatureBlockIdentUnlock svCtx output;
  match actualIdentToUnlock with
  | Some ident => Ok ident
  | None => Ok targetIdent
  end.

(** The check shared by both referential branches: the identity was
    unlocked, and at the index the unlock block refers to. *)
Definition unlockedThrough (svCtx : SemanticValidationContext) (ident : Address)
    (ref : Z) : bool :=
  match UnlockedIdents (WorkingSet svCtx) !! Address_Key ident with
  | None => false
  | Some unlockedAtIndex => bool_decide (unlockedAtIndex = ref)
  end.

Definition unlockOutput (svCtx : SemanticValidationContext) (output : Output)
    (inputIndex : nat) : result unit * SemanticValidationContext :=
  match targetIdentOf svCtx output inputIndex with
  | Err e => (Err e, svCtx)
  | Panic => (Panic, svCtx)
  | Ok targetIdent =>
      match (UnlockBlocks (Tx (WorkingSet svCtx)) : list UnlockBlock) !! inputIndex with
      | None => (Panic, svCtx)
      | Some unlockBlock =>
          if isChainConstrainedAddress targetIdent then
            match UnlockBlock_Ref unlockBlock with
            | None => (Err ErrInvalidInputUnlock, svCtx)
            | Some ref =>
                if negb (UnlockBlock_Chainable unlockBlock)
                   || negb (UnlockBlock_SourceAllowed unlockBlock targetIdent)
                then (Err ErrInvalidInputUnlock, svCtx)
                else if negb (unlockedThrough svCtx targetIdent ref)
                then (Err ErrInvalidInputUnlock, svCtx)
                else
                  match Output_Chain output with
                  | Some chain =>
                      if ChainID_Addressable chain then
                        match ChainID_ToAddress chain with
                        | Ok address =>
                            (Ok tt,
                             with_UnlockedIdents
                               (<[Address_Key address := u16 (Z.of_nat inputIndex)]>
                                  (UnlockedIdents (WorkingSet svCtx))) svCtx)
                        | Err e => (Err e, svCtx)
                        | Panic => (Panic, svCtx)
                        end
                      else (Ok tt, svCtx)
                  | None => (Ok tt, svCtx)
                  end
            end
          else
            match unlockBlock with
            | SignatureUnlockBlock signature =>
                match UnlockedIdents (WorkingSet svCtx) !! Address_Key targetIdent with
                | Some _ => (Err ErrInvalidInputUnlock, svCtx)
                | None =>
                    match Address_Unlock targetIdent
                            (EssenceMsgToSign (WorkingSet svCtx)) signature with
                    | Some e => (Err e, svCtx)
                    | None =>
                        (Ok tt,
                         with_UnlockedIdents
                           (<[Address_Key targetIdent := u16 (Z.of_nat inputIndex)]>
                              (UnlockedIdents (WorkingSet svCtx))) svCtx)
                    end
                end
            | ReferenceUnlockBlock ref | AliasUnlockBlock ref | NFTUnlockBlock ref =>
                if UnlockBlock_Chainable unlockBlock
                   || negb (UnlockBlock_SourceAllowed unlockBlock targetIdent)
                then (Err ErrInvalidInputUnlock, svCtx)
                else if negb (unlockedThrough svCtx targetIdent ref)
                then (Err ErrInvalidInputUnlock, svCtx)
                else (Ok tt, svCtx)
            end
      end
  end.

Fixpoint inputUnlocksFrom (svCtx : SemanticValidationContext) (inputIndex : nat)
    (inputs : list Input) : result unit * SemanticValidationContext :=
  match inputs with
  | [] => (Ok tt, svCtx)
  | inputRef :: rest =>
      match InputSet (WorkingSet svCtx) !! Input_Ref inputRef with
      | None => (Err ErrMissingUTXO, svCtx)
      | Some input =>
          match unlockOutput svCtx input inputIndex with
          | (Ok _, svCtx') => inputUnlocksFrom svCtx' (S inputIndex) rest
          | r => r
          end
      end
  end.

Definition TxSemanticInputUnlocks (svCtx : SemanticValidationContext)
    : result unit * SemanticValidationContext :=
  match Transaction_essence (Tx (WorkingSet svCtx)) with
  | Ok essence => inputUnlocksFrom svCtx 0 (Inputs essence)
  | Err e => (Err e, svCtx)
  | Panic => (Panic, svCtx)
  end.

End Unlocks.

(** ** Syntactic validation of the essence *)

Definition MaxInputsCount : Z := 127.
Definition MinInputsCount : Z := 1.
Definition MaxOutputsCount : Z := 127.

(** Modelled from the spec: the constants and validator functions used by
    [SyntacticallyValidate] ([ValidateInputs], [ValidateOutputs] and their
    predicates) are missing from the sources.  "All input UTXO references
    are unique; each OutputIndex <= 126." *)
Definition RefUTXOIndexMax : Z := MaxOutputsCount - 1.

Fixpoint ValidateInputs_from (seen : gset (Z * Z)) (inputs : list Input) : result unit :=
  match inputs with
  | [] => Ok tt
  | input :: rest =>
      if decide (Input_Ref input ∈ seen) then Err ErrInputUTXORefsNotUnique
      else if (snd (Input_Ref input) <? 0) || (RefUTXOIndexMax <? snd (Input_Ref input))
      then Err ErrRefUTXOIndexInvalid
      else ValidateInputs_from ({[Input_Ref input]} ∪ seen) rest
  end.

Definition ValidateInputs (inputs : list Input) : result unit :=
  ValidateInputs_from ∅ inputs.

(** Modelled from the spec: "every output's deposit > 0 and <= total token
    supply; the sum of the output deposits <= total supply; |nativeTokens|
    per output and in total <= MaxNativeTokensCount; for each output
    carrying any feature block that requires a sender (Expiration*,
    DustDepositReturn), a SenderFeatureBlock must also be present;
    FoundryOutput MaximumSupply > 0, CirculatingSupply <= MaximumSupply". *)
Definition TokenSupply : Z := 2779530283277761.
Definition MaxNativeTokensCount : Z := 256.

Definition requiresSender (fb : FeatureBlock) : bool :=
  match fb with
  | DustDepositReturnFeatureBlock _
  | ExpirationMilestoneIndexFeatureBlock _
  | ExpirationUnixFeatureBlock _ => true
  | _ => false
  end.

Definition isSender (fb : FeatureBlock) : bool :=
  match fb with
  | SenderFeatureBlock _ => true
  | _ => false
  end.

Definition outputPredicates (output : Output) (st : Z * Z) : result (Z * Z) :=
  let deposit := Output_Deposit output in
  let sum := fst st + deposit in
  let count := snd st + Z.of_nat (length (default [] (Output_NativeTokens output))) in
  if deposit =? 0 then Err ErrDepositAmountMustBeGreaterThanZero
  else if TokenSupply <? deposit then Err ErrOutputDepositsMoreThanTotalSupply
  else if TokenSupply <? sum then Err ErrOutputsSumExceedsTotalSupply
  else if MaxNativeTokensCount <? count then Err ErrOutputsExceedMaxNativeTokensCount
  else if existsb requiresSender (default [] (Output_FeatureBlocks output))
          && negb (existsb isSender (default [] (Output_FeatureBlocks output)))
  then Err ErrOutputRequiresSenderFeatureBlock
  else
    match output with
    | OFoundry f =>
        if fo_MaximumSupply f <=? 0 then Err ErrFoundryOutputInvalidMaximumSupply
        else if fo_MaximumSupply f <? fo_CirculatingSupply f
        then Err ErrFoundryOutputInvalidCirculatingSupply
        else Ok (sum, count)
    | _ => Ok (sum, count)
    end.

Fixpoint ValidateOutputs_from (st : Z * Z) (outputs : list Output) : result unit :=
  match outputs with
  | [] => Ok tt
  | output :: rest =>
      st' ← outputPredicates output st;
      ValidateOutputs_from st' rest
  end.

Definition ValidateOutputs (outputs : list Output) : result unit :=
  ValidateOutputs_from (0, 0) outputs.

Definition SyntacticallyValidate (u : TransactionEssence) : result unit :=
  if Z.of_nat (length (Inputs u)) =? 0 then Err ErrMinInputsNotReached
  else if Z.of_nat (length (Outputs u)) =? 0 then Err ErrMinOutputsNotReached
  else
    ValidateInputs (Inputs u);;
    ValidateOutputs (Outputs u).

(** ** Array rules of the codec

    [serializer.ArrayRules] belongs to the serializer library.  Its bounds
    check treats a zero bound as no bound. *)

Record ArrayRules : Type := mkArrayRules {
  ar_Min : Z;
  ar_Max : Z;
  ar_NoDuplicates : bool
}.

Definition CheckBounds (ar : ArrayRules) (count : Z) : result unit :=
  if negb (ar_Min ar =? 0) && (count <? ar_Min ar)
  then Err ErrArrayValidationMinElementsNotReached
  else if negb (ar_Max ar =? 0) && (ar_Max ar <? count)
  then Err ErrArrayValidationMaxElementsExceeded
  else Ok tt.

Definition inputsArrayBound : ArrayRules :=
  mkArrayRules MinInputsCount MaxInputsCount true.


(** [txUnlockBlockArrayRules] with the bounds that [Serialize] and
    [Deserialize] fill in on their local copy. *)
Definition unlockBlockArrayRulesCopy (inputCount : Z) : ArrayRules :=
  mkArrayRules inputCount inputCount false.

(** ** Serialization

    The serializer library is an external collaborator.  Its chained
    calls are functions on the state of the serializer: the bytes written
    so far, or the first error.  The encoders of the single inputs,
    outputs, payloads and unlock blocks, and the two validators of
    [Transaction.syntacticallyValidate] that are not in the sources, are
    parameters. *)

Definition DeSeriModeNoValidation : Z := 0.
Definition DeSeriModePerformValidation : Z := 1.
Definition DeSeriModePerformLexicalOrdering : Z := 2.

Definition HasMode (sm mode : Z) : bool := 0 <? Z.land sm mode.

(** The [n] little-endian bytes of [v]. *)
Fixpoint le_bytes (n : nat) (v : Z) : list Z :=
  match n with
  | O => []
  | S n' => (v mod 256) :: le_bytes n' (v / 256)
  end.

Record DeSerializationParameters : Type := mkDeSerializationParameters {
  MinDustDeposit : Z;
  RentStructure : Z
}.

Class ElementCodec : Type := mkElementCodec {
  Input_Serialize : Z -> Input -> result (list Z);
  Output_Serialize : Z -> Output -> result (list Z);
  Payload_Serialize : Z -> Payload -> result (list Z);
  UnlockBlock_Serialize : Z -> UnlockBlock -> result (list Z);
  OutputsSyntacticalAliasNFT : Z -> list Output -> result unit;
  UnlockBlocksSigUniqueAndRefValidator : list UnlockBlock -> result unit
}.

Definition PayloadTransaction : Z := 0.
Definition TransactionEssenceNormal : Z := 0.

Section Serialization.
Context `{Capabilities} `{ElementCodec}.

Definition AbortIf (check : result unit) (s : result (list Z)) : result (list Z) :=
  buf ← s; check;; Ok buf.

Definition WriteNum (width : nat) (v : Z) (s : result (list Z)) : result (list Z) :=
  buf ← s; Ok (buf ++ le_bytes width v).

(** The u16 length prefix of a slice. *)
Definition writeSliceLength (l : Z) (s : result (list Z)) : result (list Z) :=
  buf ← s;
  if 65535 <? l then Err ErrSliceLengthTooLong else Ok (buf ++ le_bytes 2 l).

Fixpoint serializeAll {A : Type} (ser : A -> result (list Z)) (seris : list A)
    : result (list (list Z)) :=
  match seris with
  | [] => Ok []
  | seri :: rest =>
      b ← ser seri;
      bs ← serializeAll ser rest;
      Ok (b :: bs)
  end.

(** The element validation of a no-duplicates array: no two elements with
    the same bytes. *)
Definition checkUnique (data : list (list Z)) : result unit :=
  if decide (NoDup data) then Ok tt else Err ErrArrayValidationViolatesUniqueness.

(** [WriteSliceOfObjects]: every element is serialized in the mode of the
    call; the bounds and the uniqueness of the array rules are checked in
    validation mode only. *)
Definition WriteSliceOfObjects {A : Type} (ser : Z -> A -> result (list Z))
    (seris : list A) (deSeriMode : Z) (arrayRules : option ArrayRules)
    (s : result (list Z)) : result (list Z) :=
  buf ← s;
  data ← serializeAll (ser deSeriMode) seris;
  (if HasMode deSeriMode DeSeriModePerformValidation then
     match arrayRules with
     | Some rules =>
         CheckBounds rules (Z.of_nat (length data));;
         if ar_NoDuplicates rules then checkUnique data else Ok tt
     | None => Ok tt
     end
   else Ok tt);;
  buf' ← writeSliceLength (Z.of_nat (length data)) (Ok buf);
  Ok (buf' ++ concat data).

Definition WritePayload (payload : option Payload) (deSeriMode : Z)
    (s : result (list Z)) : result (list Z) :=
  buf ← s;
  match payload with
  | None => Ok (buf ++ le_bytes 4 0)
  | Some p =>
      payloadBytes ← Payload_Serialize deSeriMode p;
      Ok (buf ++ le_bytes 4 (Z.of_nat (length payloadBytes)) ++ payloadBytes)
  end.

Definition WithValidation (deSeriMode : Z) (validate : list Z -> result unit)
    (s : result (list Z)) : result (list Z) :=
  buf ← s;
  if HasMode deSeriMode DeSeriModePerformValidation then validate buf;; Ok buf
  else Ok buf.

Definition isIndexation (p : Payload) : bool :=
  match p with
  | Indexation _ _ => true
  | OtherPayload _ _ => false
  end.

(** [TransactionEssence.Serialize].  The inputs get the uniqueness
    consumer in validation mode and no bounds; the outputs get neither. *)
Definition TransactionEssence_Serialize (u : TransactionEssence) (deSeriMode : Z)
    : result (list Z) :=
  let validation := HasMode deSeriMode DeSeriModePerformValidation in
  if validation && negb (default true (isIndexation <$> Payload_ u))
  then Err ErrInvalidBytes
  else
    let inputsWrittenConsumer :=
      if validation && ar_NoDuplicates inputsArrayBound
      then Some (mkArrayRules 0 0 true) else None in
    WritePayload (Payload_ u) deSeriMode
      (WriteSliceOfObjects Output_Serialize (Outputs u) deSeriMode None
         (WriteSliceOfObjects Input_Serialize (Inputs u) deSeriMode inputsWrittenConsumer
            (WriteNum 1 TransactionEssenceNormal
               (AbortIf (if validation then SyntacticallyValidate u else Ok tt)
                  (Ok []))))).

(** [Transaction.syntacticallyValidate] *)
Definition Transaction_syntacticallyValidate (t : Transaction) (readBytes : list Z)
    (minDustDep rentStruct : Z) : result unit :=
  essence ← Transaction_essence t;
  SyntacticallyValidate essence;;
  let txID := blake2b_Sum256 readBytes in
  OutputsSyntacticalAliasNFT txID (Outputs essence);;
  UnlockBlocksSigUniqueAndRefValidator (UnlockBlocks t).

Definition txDeSeriValidation (tx : Transaction)
    (deSeriCtx : option DeSerializationParameters) (readBytes : list Z) : result unit :=
  match deSeriCtx with
  | None => Err ErrMissingDeSerializationParas
  | Some deSeriParas =>
      Transaction_syntacticallyValidate tx readBytes
        (MinDustDeposit deSeriParas) (RentStructure deSeriParas)
  end.

(** The write guard of the essence and the essence behind the pointer. *)
Definition WriteObject_essence (seri : option TransactionEssence) (deSeriMode : Z)
    (s : result (list Z)) : result (list Z) :=
  buf ← s;
  match seri with
  | None =>
      if HasMode deSeriMode DeSeriModePerformValidation
      then Err ErrTypeIsNotSupportedEssence else Panic
  | Some essence =>
      seriBytes ← TransactionEssence_Serialize essence deSeriMode;
      Ok (buf ++ seriBytes)
  end.

Definition Transaction_Serialize (t : Transaction) (deSeriMode : Z)
    (deSeriCtx : option DeSerializationParameters) : result (list Z) :=
  essence ← Transaction_essence t;
  let inputCount := Z.of_nat (length (Inputs essence)) in
  WithValidation deSeriMode (txDeSeriValidation t deSeriCtx)
    (WriteSliceOfObjects UnlockBlock_Serialize (UnlockBlocks t) deSeriMode
       (Some (unlockBlockArrayRulesCopy inputCount))
       (WriteObject_essence (Essence t) deSeriMode
          (WriteNum 4 PayloadTransaction (Ok [])))).

Definition Transaction_ID (t : Transaction) : result Z :=
  data ← Transaction_Serialize t DeSeriModeNoValidation None;
  Ok (blake2b_Sum256 data).

(** [OutputIDFromTransactionIDAndIndex(txID, uint16(index))] for every
    output, in order. *)
Fixpoint outputsSetFrom (txID : Z) (index : nat) (outputs : list Output)
    (set : gmap (Z * Z) Output) : gmap (Z * Z) Output :=
  match outputs with
  | [] => set
  | output :: rest =>
      outputsSetFrom txID (S index) rest (<[(txID, u16 (Z.of_nat index)) := output]> set)
  end.

Definition Transaction_OutputsSet (t : Transaction) : result (gmap (Z * Z) Output) :=
  txID ← Transaction_ID t;
  essence ← Transaction_essence t;
  Ok (outputsSetFrom txID 0 (Outputs essence) ∅).

End Serialization.

(** * Properties *)

(** ** Timelocks *)

(** A feature block whose timelock has not expired under the context. *)
Definition timelocked (svCtx : SemanticValidationContext) (fb : FeatureBlock) : bool :=
  match fb with
  | TimelockMilestoneIndexFeatureBlock idx => ConfirmingMilestoneIndex svCtx <? idx
  | TimelockUnixFeatureBlock ts => ConfirmingMilestoneUnix svCtx <? ts
  | _ => false
  end.

Lemma timelockBlock_spec svCtx fb :
  timelockBlock svCtx fb = if timelocked svCtx fb then Err ErrInvalidInputUnlock else Ok tt.
Proof. destruct fb; simpl; reflexivity. Qed.

Lemma timelockBlocks_spec svCtx blocks :
  timelockBlocks svCtx blocks =
    if existsb (timelocked svCtx) blocks then Err ErrInvalidInputUnlock else Ok tt.
Proof.
  induction blocks as [|fb rest IH]; simpl; [reflexivity|].
  rewrite timelockBlock_spec.
  destruct (timelocked svCtx fb); simpl; [reflexivity|exact IH].
Qed.

Definition inputTimelocked (svCtx : SemanticValidationContext) (input : Output) : bool :=
  existsb (timelocked svCtx) (default [] (Output_FeatureBlocks input)).

Lemma timelockInput_spec svCtx input :
  timelockInput svCtx input =
    if inputTimelocked svCtx input then Err ErrInvalidInputUnlock else Ok tt.
Proof.
  unfold timelockInput, inputTimelocked.
  destruct (Output_FeatureBlocks input); simpl; [apply timelockBlocks_spec|reflexivity].
Qed.

Lemma timelockRange_spec svCtx entries :
  timelockRange svCtx entries =
    if existsb (fun e => inputTimelocked svCtx (snd e)) entries
    then Err ErrInvalidInputUnlock else Ok tt.
Proof.
  induction entries as [|[id input] rest IH]; simpl; [reflexivity|].
  rewrite timelockInput_spec.
  destruct (inputTimelocked svCtx input); simpl; [reflexivity|exact IH].
Qed.

(** C8: the Timelock step fails, with [ErrInvalidInputUnlock], exactly when
    some entry of the input set carries a milestone-index timelock above
    the confirming milestone index or a unix timelock above the confirming
    milestone time; otherwise it passes.  A unix timelock equal to the
    confirming milestone time is not in the way. *)
Theorem TxSemanticTimelock_iff (svCtx : SemanticValidationContext) :
  (TxSemanticTimelock svCtx = Err ErrInvalidInputUnlock <->
     exists id input blocks fb,
       InputSet (WorkingSet svCtx) !! id = Some input /\
       Output_FeatureBlocks input = Some blocks /\
       fb ∈ blocks /\
       timelocked svCtx fb = true) /\
  (TxSemanticTimelock svCtx = Ok tt <->
     TxSemanticTimelock svCtx <> Err ErrInvalidInputUnlock) /\
  (forall idx, timelocked svCtx (TimelockMilestoneIndexFeatureBlock idx)
               = bool_decide (ConfirmingMilestoneIndex svCtx < idx)) /\
  (forall ts, timelocked svCtx (TimelockUnixFeatureBlock ts)
              = bool_decide (ConfirmingMilestoneUnix svCtx < ts)) /\
  timelocked svCtx (TimelockUnixFeatureBlock (ConfirmingMilestoneUnix svCtx)) = false.
Proof.
  unfold TxSemanticTimelock. rewrite timelockRange_spec.
  split; [|split; [|split; [|split]]].
  - destruct (existsb _ _) eqn:E.
    + split; [intros _|reflexivity].
      apply existsb_exists in E as [[id input] [Hin Ht]].
      apply list_elem_of_In, elem_of_map_to_list in Hin.
      simpl in Ht. unfold inputTimelocked in Ht.
      destruct (Output_FeatureBlocks input) as [blocks|] eqn:Hb; simpl in Ht; [|discriminate].
      apply existsb_exists in Ht as [fb [Hfb Hl]].
      exists id, input, blocks, fb. repeat split; try assumption.
      by apply list_elem_of_In.
    + split; [discriminate|].
      intros (id & input & blocks & fb & Hlook & Hb & Hfb & Hl).
      exfalso.
      assert (existsb (fun e : Z * Z * Output => inputTimelocked svCtx (snd e))
                (map_to_list (InputSet (WorkingSet svCtx))) = true) as E'.
      { apply existsb_exists. exists (id, input). split.
        - apply list_elem_of_In, elem_of_map_to_list. exact Hlook.
        - simpl. unfold inputTimelocked. rewrite Hb. simpl.
          apply existsb_exists. exists fb. split; [by apply list_elem_of_In|exact Hl]. }
      congruence.
  - destruct (existsb _ _); split; congruence.
  - intros idx. simpl. destruct (Z.ltb_spec (ConfirmingMilestoneIndex svCtx) idx);
      [rewrite bool_decide_eq_true_2|rewrite bool_decide_eq_false_2]; auto; lia.
  - intros ts. simpl. destruct (Z.ltb_spec (ConfirmingMilestoneUnix svCtx) ts);
      [rewrite bool_decide_eq_true_2|rewrite bool_decide_eq_false_2]; auto; lia.
  - simpl. apply Z.ltb_irrefl.
Qed.

(** The scenario of the specification: a unix timelock of 1 700 000 000. *)
Definition timelockScenario (milestoneUnix : Z) : SemanticValidationContext :=
  mkSemanticValidationContext 0 milestoneUnix
    (mkWorkingSet ∅
       {[ (1, 0) := OExtended (mkExtendedOutput (Ed25519Address 7) 1000000 []
                                 [TimelockUnixFeatureBlock 1700000000]) ]}
       (mkTransaction (Some (mkTransactionEssence [UTXOInput 1 0] [] None)) [])
       0 ∅ ∅ ∅ ∅ ∅ ∅).

Example timelock_scenario_locked :
  TxSemanticTimelock (timelockScenario 1699999999) = Err ErrInvalidInputUnlock.
Proof. vm_compute. reflexivity. Qed.

Example timelock_scenario_unlocked :
  TxSemanticTimelock (timelockScenario 1700000000) = Ok tt.
Proof. vm_compute. reflexivity. Qed.

(** ** Feature block sets *)

Definition findBlock (k : Z) (blocks : list FeatureBlock) : option FeatureBlock :=
  List.find (fun b => FeatureBlock_Type b =? k) blocks.

(** Every kind at most once. *)
Definition uniqueKinds (blocks : list FeatureBlock) : bool :=
  bool_decide (NoDup (map FeatureBlock_Type blocks)).

Lemma FeatureBlocks_Set_from_ok (blocks : list FeatureBlock) :
  forall set : gmap Z FeatureBlock,
    NoDup (map FeatureBlock_Type blocks) ->
    (forall b, b ∈ blocks -> set !! FeatureBlock_Type b = None) ->
    exists set',
      FeatureBlocks_Set_from set blocks = Ok set' /\
      forall k, set' !! k = match set !! k with
                            | Some b => Some b
                            | None => findBlock k blocks
                            end.
Proof.
  induction blocks as [|b rest IH]; intros set Hnd Hfresh; simpl.
  - exists set. split; [reflexivity|]. intros k. unfold findBlock. simpl.
    destruct (set !! k); reflexivity.
  - rewrite (Hfresh b) by (left).
    apply NoDup_cons in Hnd as [Hnotin Hnd].
    destruct (IH (<[FeatureBlock_Type b := b]> set) Hnd) as [set' [Hok Hlook]].
    { intros b' Hb'. rewrite lookup_insert_ne.
      - apply Hfresh. by right.
      - intros Heq. apply Hnotin. rewrite Heq.
        apply list_elem_of_fmap. exists b'. split; [reflexivity|exact Hb']. }
    exists set'. split; [exact Hok|].
    intros k. rewrite Hlook. unfold findBlock. simpl.
    pose proof (Hfresh b ltac:(left)) as Hb.
    destruct (Z.eqb_spec (FeatureBlock_Type b) k) as [Heq|Hne].
    + rewrite <- Heq, lookup_insert_eq, Hb. reflexivity.
    + rewrite lookup_insert_ne by exact Hne. reflexivity.
Qed.

Lemma FeatureBlocks_Set_ok (blocks : list FeatureBlock) :
  uniqueKinds blocks = true ->
  exists set, FeatureBlocks_Set blocks = Ok set /\ forall k, set !! k = findBlock k blocks.
Proof.
  intros Hu. apply bool_decide_eq_true_1 in Hu.
  destruct (FeatureBlocks_Set_from_ok blocks ∅ Hu) as [set [Hok Hl]].
  { intros; apply lookup_empty. }
  exists set. split; [exact Hok|]. intros k. rewrite Hl, lookup_empty. reflexivity.
Qed.

Lemma findBlock_type k blocks fb :
  findBlock k blocks = Some fb -> FeatureBlock_Type fb = k /\ fb ∈ blocks.
Proof.
  unfold findBlock. intros Hf. apply find_some in Hf as [Hin Heq].
  split; [by apply Z.eqb_eq|by apply list_elem_of_In].
Qed.

Lemma findBlock_none k blocks :
  findBlock k blocks = None -> forall fb, fb ∈ blocks -> FeatureBlock_Type fb <> k.
Proof.
  unfold findBlock. intros Hf fb Hin Heq.
  apply list_elem_of_In in Hin.
  pose proof (find_none _ _ Hf fb Hin) as Hn. simpl in Hn.
  apply Z.eqb_neq in Hn. contradiction.
Qed.

Lemma findBlock_sender blocks :
  existsb isSender blocks = true ->
  exists a, findBlock FeatureBlockSender blocks = Some (SenderFeatureBlock a).
Proof.
  intros He. destruct (findBlock FeatureBlockSender blocks) as [fb|] eqn:Hf.
  - apply findBlock_type in Hf as [Ht _].
    destruct fb; try discriminate. eauto.
  - exfalso. apply existsb_exists in He as [fb [Hin Hs]].
    apply list_elem_of_In in Hin.
    apply (findBlock_none _ _ Hf fb Hin). destruct fb; try discriminate. reflexivity.
Qed.

(** ** Deposit balance *)

Definition sumZ (l : list Z) : Z := foldr Z.add 0 l.

(** The shape the syntactic rules give the feature blocks of an output:
    every kind at most once, and a sender next to every block that
    requires one. *)
Definition wfBlocks (blocks : list FeatureBlock) : bool :=
  uniqueKinds blocks && implb (existsb requiresSender blocks) (existsb isSender blocks).

Definition wfOutput (o : Output) : bool :=
  match Output_FeatureBlocks o with
  | None => true
  | Some blocks => wfBlocks blocks
  end.

(** The dust-deposit return an input declares: the identity of its sender
    block and the amount of its return block. *)
Definition dustReturn (input : Output) : option (Z * Z * Z) :=
  match Output_FeatureBlocks input with
  | None => None
  | Some blocks =>
      match findBlock FeatureBlockDustDepositReturn blocks,
            findBlock FeatureBlockSender blocks with
      | Some (DustDepositReturnFeatureBlock amount), Some (SenderFeatureBlock address) =>
          Some (Address_Key address, amount)
      | _, _ => None
      end
  end.

(** The plain value transfer an output makes: a simple output, or an
    extended output without feature blocks. *)
Definition plainTransfer (output : Output) : option (Z * Z * Z) :=
  match output with
  | OSimple s => Some (Address_Key (so_Address s), so_Amount s)
  | OExtended e =>
      match eo_Blocks e with
      | [] => Some (Address_Key (eo_Address e), eo_Amount e)
      | _ :: _ => None
      end
  | _ => None
  end.

(** The amounts a list of (identity, amount) pairs holds for one identity. *)
Definition amountsFor (k : Z * Z) (l : list (option (Z * Z * Z))) : list Z :=
  flat_map (fun o => match o with
                     | Some (k', a) => if decide (k' = k) then [a] else []
                     | None => []
                     end) l.

Definition returnsTo (k : Z * Z) (inputs : gmap (Z * Z) Output) : list Z :=
  amountsFor k (map (fun e => dustReturn (snd e)) (map_to_list inputs)).

Definition transfersTo (k : Z * Z) (outputs : list Output) : list Z :=
  amountsFor k (map plainTransfer outputs).

Definition inputDeposits (inputs : gmap (Z * Z) Output) : list Z :=
  map (fun e => Output_Deposit (snd e)) (map_to_list inputs).

Definition outputDeposits (outputs : list Output) : list Z :=
  map Output_Deposit outputs.

(** What a [+=] loop leaves in a [map[string]uint64] for one key. *)
Definition accumulated (o : option Z) (l : list Z) : option Z :=
  match l with
  | [] => o
  | _ :: _ => Some (u64 (default 0 o + sumZ l))
  end.

Lemma u64_idemp x : u64 (u64 x) = u64 x.
Proof. unfold u64. apply Z.mod_mod. lia. Qed.

Lemma u64_add_l x y : u64 (u64 x + y) = u64 (x + y).
Proof. unfold u64. apply Zplus_mod_idemp_l. Qed.

Lemma sumZ_app l1 l2 : sumZ (l1 ++ l2) = sumZ l1 + sumZ l2.
Proof. induction l1 as [|x l1 IH]; simpl; [reflexivity|]. rewrite IH. lia. Qed.

Lemma accumulated_app o l1 l2 :
  accumulated (accumulated o l1) l2 = accumulated o (l1 ++ l2).
Proof.
  destruct l1 as [|x l1]; [reflexivity|].
  destruct l2 as [|y l2].
  - rewrite app_nil_r. reflexivity.
  - change (accumulated (accumulated o (x :: l1)) (y :: l2))
      with (Some (u64 (u64 (default 0 o + sumZ (x :: l1)) + sumZ (y :: l2)))).
    change (accumulated o ((x :: l1) ++ y :: l2))
      with (Some (u64 (default 0 o + sumZ ((x :: l1) ++ y :: l2)))).
    rewrite u64_add_l, sumZ_app. f_equal. f_equal. lia.
Qed.

Lemma map_add_u64_lookup (k : Z * Z) (a : Z) (m : gmap (Z * Z) Z) (k' : Z * Z) :
  map_add_u64 k a m !! k' =
    accumulated (m !! k') (if decide (k = k') then [a] else []).
Proof.
  unfold map_add_u64. destruct (decide (k = k')) as [->|Hne].
  - rewrite lookup_insert_eq. simpl. unfold u64_add. repeat f_equal. lia.
  - rewrite lookup_insert_ne by exact Hne. reflexivity.
Qed.

Lemma depositInput_wf input st :
  wfOutput input = true ->
  depositInput input st =
    Ok (u64_add (fst st) (Output_Deposit input),
        match dustReturn input with
        | Some (k, a) => map_add_u64 k a (snd st)
        | None => snd st
        end).
Proof.
  unfold wfOutput, depositInput, dustReturn.
  destruct (Output_FeatureBlocks input) as [blocks|]; [|reflexivity].
  unfold wfBlocks. intros Hwf. apply andb_true_iff in Hwf as [Hu Hs].
  destruct (FeatureBlocks_Set_ok blocks Hu) as [set [Hok Hl]].
  rewrite Hok. cbn [mbind result_bind rbind]. rewrite !Hl.
  destruct (findBlock FeatureBlockDustDepositReturn blocks) as [fb|] eqn:Hr; [|reflexivity].
  apply findBlock_type in Hr as [Ht Hin].
  assert (existsb requiresSender blocks = true) as Hreq.
  { apply existsb_exists. exists fb. split; [by apply list_elem_of_In|].
    destruct fb; try discriminate. reflexivity. }
  rewrite Hreq in Hs. simpl in Hs.
  destruct (findBlock_sender blocks Hs) as [a Ha]. rewrite Ha.
  destruct fb; try discriminate. reflexivity.
Qed.

Lemma depositInputs_wf entries :
  Forall (fun e : Z * Z * Output => wfOutput (snd e) = true) entries ->
  forall st, u64 (fst st) = fst st ->
    exists st',
      depositInputs entries st = Ok st' /\
      fst st' = u64 (fst st + sumZ (map (fun e => Output_Deposit (snd e)) entries)) /\
      forall k, snd st' !! k =
                accumulated (snd st !! k)
                  (amountsFor k (map (fun e => dustReturn (snd e)) entries)).
Proof.
  induction 1 as [|[id input] rest Hwf _ IH]; intros st Hst.
  - exists st. simpl. rewrite Z.add_0_r, Hst. auto.
  - simpl in Hwf. cbn [depositInputs]. rewrite (depositInput_wf input st Hwf).
    edestruct IH as [st' [Hok [Hfst Hsnd]]]; [|exists st'; split; [exact Hok|split]].
    + simpl. unfold u64_add. apply u64_idemp.
    + rewrite Hfst. cbn [fst snd]. unfold u64_add.
      rewrite u64_add_l. apply (f_equal u64). unfold sumZ. simpl. lia.
    + intros k. rewrite Hsnd. cbn [snd map amountsFor flat_map].
      rewrite <- accumulated_app. f_equal.
      destruct (dustReturn input) as [[k' a]|]; [|reflexivity].
      apply map_add_u64_lookup.
Qed.

Lemma depositOutput_spec output st :
  depositOutput output st =
    (u64_add (fst st) (Output_Deposit output),
     match plainTransfer output with
     | Some (k, a) => map_add_u64 k a (snd st)
     | None => snd st
     end).
Proof.
  unfold depositOutput, plainTransfer.
  destruct output as [s|e|a|f|n]; try reflexivity.
  destruct (eo_Blocks e); reflexivity.
Qed.

Lemma depositOutputs_spec outputs :
  forall st, u64 (fst st) = fst st ->
    fst (depositOutputs outputs st) = u64 (fst st + sumZ (outputDeposits outputs)) /\
    forall k, snd (depositOutputs outputs st) !! k =
              accumulated (snd st !! k) (amountsFor k (map plainTransfer outputs)).
Proof.
  induction outputs as [|output rest IH]; intros st Hst.
  - simpl. rewrite Z.add_0_r, Hst. auto.
  - cbn [depositOutputs]. rewrite depositOutput_spec.
    match goal with
    | |- context [depositOutputs rest ?s] => destruct (IH s) as [Hfst Hsnd]
    end; [|split].
    + simpl. unfold u64_add. apply u64_idemp.
    + rewrite Hfst. cbn [fst]. unfold u64_add.
      rewrite u64_add_l. apply (f_equal u64). unfold sumZ, outputDeposits. simpl. lia.
    + intros k. rewrite Hsnd. cbn [snd map amountsFor flat_map].
      rewrite <- accumulated_app. f_equal.
      destruct (plainTransfer output) as [[k' a]|]; [|reflexivity].
      apply map_add_u64_lookup.
Qed.

Definition returnMet (outputSimpleTransfersPerIdent : gmap (Z * Z) Z)
    (entry : Z * Z * Z) : bool :=
  match outputSimpleTransfersPerIdent !! fst entry with
  | None => false
  | Some outSum => negb (outSum <? snd entry)
  end.

Lemma depositReturns_spec outs entries :
  depositReturns outs entries =
    if forallb (returnMet outs) entries then Ok tt else Err ErrReturnAmountNotFulFilled.
Proof.
  induction entries as [|[ident returnSum] rest IH]; simpl; [reflexivity|].
  unfold returnMet at 1. simpl.
  destruct (outs !! ident) as [outSum|]; simpl; [|reflexivity].
  destruct (outSum <? returnSum); simpl; [reflexivity|exact IH].
Qed.

(** The deposit sums of the two sides, as the step computes them. *)
Definition inSum (inputs : gmap (Z * Z) Output) : Z := u64 (sumZ (inputDeposits inputs)).
Definition outSum (outputs : list Output) : Z := u64 (sumZ (outputDeposits outputs)).

(** The return declared for one identity is met: some plain transfer to
    the identity exists and the transfers add up to the returns, both sums
    taken in [uint64]. *)
Definition returnFulfilled (inputs : gmap (Z * Z) Output) (outputs : list Output)
    (k : Z * Z) : Prop :=
  returnsTo k inputs <> [] ->
  transfersTo k outputs <> [] /\
  u64 (sumZ (returnsTo k inputs)) <= u64 (sumZ (transfersTo k outputs)).

Definition wfInputSet (inputs : gmap (Z * Z) Output) : Prop :=
  map_Forall (fun _ o => wfOutput o = true) inputs.

Lemma wfInputSet_entries inputs :
  wfInputSet inputs ->
  Forall (fun e : Z * Z * Output => wfOutput (snd e) = true) (map_to_list inputs).
Proof.
  intros Hwf. apply Forall_forall. intros [id o] Hin.
  apply elem_of_map_to_list in Hin. exact (Hwf id o Hin).
Qed.

Lemma accumulated_None_some l r :
  accumulated None l = Some r <-> l <> [] /\ r = u64 (sumZ l).
Proof.
  destruct l as [|x l]; simpl.
  - split; [discriminate|intros [[] _]; reflexivity].
  - split.
    + intros [= <-]. split; [discriminate|reflexivity].
    + intros [_ ->]. reflexivity.
Qed.

Lemma depositReturns_fulfilled (rets outs : gmap (Z * Z) Z) inputs outputs :
  (forall k, rets !! k = accumulated None (returnsTo k inputs)) ->
  (forall k, outs !! k = accumulated None (transfersTo k outputs)) ->
  forallb (returnMet outs) (map_to_list rets) = true <->
  forall k, returnFulfilled inputs outputs k.
Proof.
  intros Hr Ho. rewrite forallb_forall. split.
  - intros Hall k Hne.
    destruct (rets !! k) as [r|] eqn:Hk.
    + specialize (Hall (k, r)). unfold returnMet in Hall. simpl in Hall.
      rewrite Hr in Hk. apply accumulated_None_some in Hk as [_ ->].
      destruct (outs !! k) as [t|] eqn:Hout.
      * rewrite Ho in Hout. apply accumulated_None_some in Hout as [Hne' ->].
        split; [exact Hne'|].
        assert ((u64 (sumZ (transfersTo k outputs)) <? u64 (sumZ (returnsTo k inputs))) = false)
          as Hlt.
        { apply negb_true_iff. apply Hall.
          apply list_elem_of_In, elem_of_map_to_list.
          rewrite Hr. apply accumulated_None_some. auto. }
        apply Z.ltb_ge in Hlt. exact Hlt.
      * exfalso. assert (false = true) as Hf; [|discriminate].
        apply Hall. apply list_elem_of_In, elem_of_map_to_list.
        rewrite Hr. apply accumulated_None_some. auto.
    + rewrite Hr in Hk. destruct (returnsTo k inputs); [contradiction|discriminate].
  - intros Hall [k r] Hin.
    apply list_elem_of_In, elem_of_map_to_list in Hin.
    rewrite Hr in Hin. apply accumulated_None_some in Hin as [Hne ->].
    destruct (Hall k Hne) as [Hne' Hle].
    unfold returnMet. simpl. rewrite Ho.
    destruct (transfersTo k outputs) as [|x l] eqn:Ht; [contradiction|].
    cbn [accumulated]. apply negb_true_iff, Z.ltb_ge. exact Hle.
Qed.

(** The step on a well-formed input set, in terms of the sums. *)
Lemma TxSemanticDeposit_unfold svCtx essence :
  Essence (Tx (WorkingSet svCtx)) = Some essence ->
  wfInputSet (InputSet (WorkingSet svCtx)) ->
  exists rets outs : gmap (Z * Z) Z,
    (forall k, rets !! k = accumulated None (returnsTo k (InputSet (WorkingSet svCtx)))) /\
    (forall k, outs !! k = accumulated None (transfersTo k (Outputs essence))) /\
    depositInputs (map_to_list (InputSet (WorkingSet svCtx))) (0, ∅)
      = Ok (inSum (InputSet (WorkingSet svCtx)), rets) /\
    TxSemanticDeposit svCtx =
      if decide (inSum (InputSet (WorkingSet svCtx)) = outSum (Outputs essence))
      then depositReturns outs (map_to_list rets)
      else Err ErrInputOutputSumMismatch.
Proof.
  intros He Hwf.
  destruct (depositInputs_wf _ (wfInputSet_entries _ Hwf) (0, ∅) eq_refl)
    as [[in_ rets] [Hok [Hfst Hsnd]]].
  destruct (depositOutputs_spec (Outputs essence) (0, ∅) eq_refl) as [Hofst Hosnd].
  simpl in Hfst, Hsnd, Hofst, Hosnd.
  exists rets, (snd (depositOutputs (Outputs essence) (0, ∅))).
  split; [|split; [|split]].
  - intros k. rewrite Hsnd, lookup_empty. reflexivity.
  - intros k. rewrite Hosnd, lookup_empty. reflexivity.
  - rewrite Hok, Hfst. reflexivity.
  - unfold TxSemanticDeposit, Transaction_essence. rewrite Hok, He.
    cbn [mbind result_bind rbind fst snd]. rewrite Hfst, Hofst. reflexivity.
Qed.

Lemma depositReturns_cases outs entries :
  depositReturns outs entries = Ok tt \/
  depositReturns outs entries = Err ErrReturnAmountNotFulFilled.
Proof. rewrite depositReturns_spec. destruct (forallb _ _); auto. Qed.

(** C4, amended: on a well-formed input set the Deposit-balance step passes
    exactly when the input deposit sum equals the output deposit sum and,
    for every identity that is the sender of a dust-deposit return on some
    input, at least one plain value transfer to that identity exists and
    the transfers to it add up to at least the returns declared for it
    (all sums in uint64).  Otherwise it fails with
    [ErrInputOutputSumMismatch], respectively [ErrReturnAmountNotFulFilled]. *)
Theorem TxSemanticDeposit_iff (svCtx : SemanticValidationContext)
    (essence : TransactionEssence) :
  Essence (Tx (WorkingSet svCtx)) = Some essence ->
  wfInputSet (InputSet (WorkingSet svCtx)) ->
  (TxSemanticDeposit svCtx = Ok tt <->
     inSum (InputSet (WorkingSet svCtx)) = outSum (Outputs essence) /\
     forall k, returnFulfilled (InputSet (WorkingSet svCtx)) (Outputs essence) k) /\
  (inSum (InputSet (WorkingSet svCtx)) <> outSum (Outputs essence) ->
     TxSemanticDeposit svCtx = Err ErrInputOutputSumMismatch) /\
  (inSum (InputSet (WorkingSet svCtx)) = outSum (Outputs essence) ->
     ~ (forall k, returnFulfilled (InputSet (WorkingSet svCtx)) (Outputs essence) k) ->
     TxSemanticDeposit svCtx = Err ErrReturnAmountNotFulFilled).
Proof.
  intros He Hwf.
  destruct (TxSemanticDeposit_unfold svCtx essence He Hwf)
    as (rets & outs & Hr & Ho & _ & Hstep).
  pose proof (depositReturns_fulfilled rets outs _ _ Hr Ho) as Hful.
  rewrite Hstep, depositReturns_spec.
  destruct (decide (inSum (InputSet (WorkingSet svCtx)) = outSum (Outputs essence)))
    as [Heq|Hne].
  - destruct (forallb (returnMet outs) (map_to_list rets)) eqn:Hall.
    + split; [|split]; [|congruence|].
      * split; [|reflexivity]. intros _. split; [exact Heq|by apply Hful].
      * intros _ Hn. exfalso. apply Hn. by apply Hful.
    + split; [|split]; [|congruence|reflexivity].
      split; [discriminate|]. intros [_ Hk]. apply Hful in Hk. discriminate.
  - split; [|split]; [|reflexivity|congruence].
    split; [discriminate|]. intros [Heq _]. contradiction.
Qed.

(** C3, amended: the deposit sums of the Deposit-balance step are plain
    uint64 additions, which wrap around: each side's sum is the sum of the
    deposits modulo 2^64, the step reports [ErrInputOutputSumMismatch]
    exactly when the two sums differ modulo 2^64, and no overflow is
    detected.  When both sums stay below 2^64, as the source expects after
    syntactic validation, this is the comparison of the sums themselves. *)
Theorem TxSemanticDeposit_sums_wrap (svCtx : SemanticValidationContext)
    (essence : TransactionEssence) :
  Essence (Tx (WorkingSet svCtx)) = Some essence ->
  wfInputSet (InputSet (WorkingSet svCtx)) ->
  let sumIn := sumZ (inputDeposits (InputSet (WorkingSet svCtx))) in
  let sumOut := sumZ (outputDeposits (Outputs essence)) in
  (exists rets,
     depositInputs (map_to_list (InputSet (WorkingSet svCtx))) (0, ∅)
       = Ok (sumIn mod 2 ^ 64, rets)) /\
  fst (depositOutputs (Outputs essence) (0, ∅)) = sumOut mod 2 ^ 64 /\
  (TxSemanticDeposit svCtx = Err ErrInputOutputSumMismatch <->
     sumIn mod 2 ^ 64 <> sumOut mod 2 ^ 64) /\
  (0 <= sumIn < 2 ^ 64 -> 0 <= sumOut < 2 ^ 64 ->
     (TxSemanticDeposit svCtx = Err ErrInputOutputSumMismatch <-> sumIn <> sumOut)).
Proof.
  intros He Hwf sumIn sumOut.
  destruct (TxSemanticDeposit_unfold svCtx essence He Hwf)
    as (rets & outs & _ & _ & Hin & Hstep).
  destruct (depositOutputs_spec (Outputs essence) (0, ∅) eq_refl) as [Hofst _].
  assert (TxSemanticDeposit svCtx = Err ErrInputOutputSumMismatch <->
          sumIn mod 2 ^ 64 <> sumOut mod 2 ^ 64) as Hiff.
  { rewrite Hstep. unfold inSum, outSum, u64. fold sumIn sumOut.
    destruct (decide (sumIn mod 2 ^ 64 = sumOut mod 2 ^ 64)) as [Heq|Hne].
    - destruct (depositReturns_cases outs (map_to_list rets)) as [-> | ->];
        split; congruence.
    - split; [intros _; exact Hne|reflexivity]. }
  split; [|split; [|split]].
  - exists rets. exact Hin.
  - rewrite Hofst. reflexivity.
  - exact Hiff.
  - intros Hi Ho. rewrite Hiff, !Z.mod_small by assumption. reflexivity.
Qed.

(** *** Concrete transactions for the Deposit-balance step *)

Definition depositCtx (inputs : gmap (Z * Z) Output) (txInputs : list Input)
    (outputs : list Output) : SemanticValidationContext :=
  mkSemanticValidationContext 10 1700000000
    (mkWorkingSet ∅ inputs
       (mkTransaction (Some (mkTransactionEssence txInputs outputs None)) [])
       0 ∅ ∅ ∅ ∅ ∅ ∅).

(** The minimal transfer of the specification: 1 000 000 in, 1 000 000 out. *)
Definition transferInputs : gmap (Z * Z) Output :=
  {[ (1, 0) := OSimple (mkSimpleOutput (Ed25519Address 11) 1000000) ]}.

Definition transferOutputs : list Output :=
  [OSimple (mkSimpleOutput (Ed25519Address 12) 1000000)].

Definition transferCtx : SemanticValidationContext :=
  depositCtx transferInputs [UTXOInput 1 0] transferOutputs.

Lemma transferInputs_wf : wfInputSet transferInputs.
Proof. apply map_Forall_singleton. reflexivity. Defined.

Example transfer_balanced : TxSemanticDeposit transferCtx = Ok tt.
Proof. vm_compute. reflexivity. Qed.

Example transfer_mismatch :
  TxSemanticDeposit
    (depositCtx transferInputs [UTXOInput 1 0]
       [OSimple (mkSimpleOutput (Ed25519Address 12) 999999)])
  = Err ErrInputOutputSumMismatch.
Proof. vm_compute. reflexivity. Qed.

Lemma TxSemanticDeposit_iff_witness :
  TxSemanticDeposit transferCtx = Ok tt <->
    inSum transferInputs = outSum transferOutputs /\
    forall k, returnFulfilled transferInputs transferOutputs k.
Proof.
  exact (proj1 (TxSemanticDeposit_iff transferCtx
                  (mkTransactionEssence [UTXOInput 1 0] transferOutputs None)
                  eq_refl transferInputs_wf)).
Defined.

Lemma TxSemanticDeposit_sums_wrap_witness :
  TxSemanticDeposit transferCtx = Err ErrInputOutputSumMismatch <->
    sumZ (inputDeposits transferInputs) mod 2 ^ 64
    <> sumZ (outputDeposits transferOutputs) mod 2 ^ 64.
Proof.
  exact (proj1 (proj2 (proj2 (TxSemanticDeposit_sums_wrap transferCtx
                  (mkTransactionEssence [UTXOInput 1 0] transferOutputs None)
                  eq_refl transferInputs_wf)))).
Defined.

(** Sums with overflow detection, as the specification words them. *)
Definition checked_add_u64 (a b : Z) : option Z :=
  if a + b <? 2 ^ 64 then Some (a + b) else None.

Fixpoint checked_sum_u64 (acc : Z) (l : list Z) : option Z :=
  match l with
  | [] => Some acc
  | x :: rest =>
      match checked_add_u64 acc x with
      | Some acc' => checked_sum_u64 acc' rest
      | None => None
      end
  end.

(** Two inputs of 2^64 - 1 and 2 against one output of 1. *)
Definition overflowInputs : gmap (Z * Z) Output :=
  {[ (1, 0) := OSimple (mkSimpleOutput (Ed25519Address 11) 18446744073709551615);
     (1, 1) := OSimple (mkSimpleOutput (Ed25519Address 11) 2) ]}.

Definition overflowCtx : SemanticValidationContext :=
  depositCtx overflowInputs [UTXOInput 1 0; UTXOInput 1 1]
    [OSimple (mkSimpleOutput (Ed25519Address 12) 1)].

(** The input-side sum overflows uint64, no overflow is detected, and the
    step accepts 2^64 + 1 against 1. *)
Lemma TxSemanticDeposit_overflow_undetected :
  checked_sum_u64 0 (inputDeposits overflowInputs) = None /\
  sumZ (inputDeposits overflowInputs) = 2 ^ 64 + 1 /\
  TxSemanticDeposit overflowCtx = Ok tt.
Proof. vm_compute. repeat split; reflexivity. Qed.

(** An input that declares a return of 0 to its sender, and no output to
    that sender. *)
Definition returnZeroInputs : gmap (Z * Z) Output :=
  {[ (1, 0) := OExtended (mkExtendedOutput (Ed25519Address 11) 5 []
                            [SenderFeatureBlock (Ed25519Address 21);
                             DustDepositReturnFeatureBlock 0]) ]}.

Definition returnZeroOutputs : list Output :=
  [OSimple (mkSimpleOutput (Ed25519Address 12) 5)].

Definition returnZeroCtx : SemanticValidationContext :=
  depositCtx returnZeroInputs [UTXOInput 1 0] returnZeroOutputs.

(** The deposit sums are equal and, for every identity, the plain
    transfers to it add up to at least the returns declared for it (0
    against 0 for the one sender); the step nevertheless rejects. *)
Lemma TxSemanticDeposit_zero_return_rejected :
  sumZ (inputDeposits returnZeroInputs) = sumZ (outputDeposits returnZeroOutputs) /\
  (forall k, sumZ (returnsTo k returnZeroInputs) <= sumZ (transfersTo k returnZeroOutputs)) /\
  TxSemanticDeposit returnZeroCtx = Err ErrReturnAmountNotFulFilled.
Proof.
  split; [vm_compute; reflexivity|split; [|vm_compute; reflexivity]].
  intros k. unfold returnsTo, transfersTo, returnZeroInputs, returnZeroOutputs.
  rewrite map_to_list_singleton. cbn -[decide].
  repeat case_decide; cbn; lia.
Qed.

(** ** The steps range over the whole input set *)

Lemma sumZ_Permutation (l1 l2 : list Z) : l1 ≡ₚ l2 -> sumZ l1 = sumZ l2.
Proof.
  intros Hp. induction Hp; simpl; lia.
Qed.

Lemma inputDeposits_insert (inputs : gmap (Z * Z) Output) (id : Z * Z) (o : Output) :
  inputs !! id = None ->
  sumZ (inputDeposits (<[id := o]> inputs)) = Output_Deposit o + sumZ (inputDeposits inputs).
Proof.
  intros Hfresh. unfold inputDeposits.
  rewrite (sumZ_Permutation _ _
             (Permutation_map (fun e : Z * Z * Output => Output_Deposit (snd e))
                (map_to_list_insert inputs id o Hfresh))).
  reflexivity.
Qed.

Lemma u64_shift d s : 0 < d < 2 ^ 64 -> u64 (d + s) <> u64 s.
Proof.
  unfold u64. intros Hd Heq.
  assert ((d + s - s) mod 2 ^ 64 = 0) as Hz.
  { rewrite Zminus_mod, Heq, Z.sub_diag. reflexivity. }
  replace (d + s - s) with d in Hz by lia.
  rewrite Z.mod_small in Hz; lia.
Qed.

Lemma inputTimelocked_with_InputSet inputs svCtx o :
  inputTimelocked (with_InputSet inputs svCtx) o = inputTimelocked svCtx o.
Proof.
  unfold inputTimelocked. induction (default [] (Output_FeatureBlocks o)) as [|fb l IH];
    [reflexivity|].
  cbn [existsb]. rewrite IH. destruct fb; reflexivity.
Qed.

Lemma TxSemanticTimelock_entry svCtx id input :
  InputSet (WorkingSet svCtx) !! id = Some input ->
  inputTimelocked svCtx input = true ->
  TxSemanticTimelock svCtx = Err ErrInvalidInputUnlock.
Proof.
  intros Hl Ht. unfold TxSemanticTimelock. rewrite timelockRange_spec.
  replace (existsb _ _) with true; [reflexivity|].
  symmetry. apply existsb_exists. exists (id, input). split; [|exact Ht].
  apply list_elem_of_In, elem_of_map_to_list. exact Hl.
Qed.

(** C9: the Deposit-balance and Timelock steps range over every entry of
    the supplied input set, whether or not the transaction's inputs refer
    to it.  The input-side deposit sum is the uint64 sum over all entries
    of the map, and any entry with an unexpired timelock fails the Timelock
    step.  Consequently, adding an entry that no input of the transaction
    refers to, with a non-zero deposit, to the input set of a transaction
    that passes the balance check makes the step reject it with
    [ErrInputOutputSumMismatch]. *)
Theorem steps_range_over_InputSet (svCtx : SemanticValidationContext)
    (essence : TransactionEssence) (id : Z * Z) (o : Output) :
  Essence (Tx (WorkingSet svCtx)) = Some essence ->
  wfInputSet (InputSet (WorkingSet svCtx)) ->
  InputSet (WorkingSet svCtx) !! id = None ->
  Forall (fun input => Input_Ref input <> id) (Inputs essence) ->
  wfOutput o = true ->
  0 < Output_Deposit o < 2 ^ 64 ->
  TxSemanticDeposit svCtx = Ok tt ->
  let svCtx' := with_InputSet (<[id := o]> (InputSet (WorkingSet svCtx))) svCtx in
  (exists rets,
     depositInputs (map_to_list (InputSet (WorkingSet svCtx))) (0, ∅)
       = Ok (u64 (sumZ (inputDeposits (InputSet (WorkingSet svCtx)))), rets)) /\
  (forall id' input,
     InputSet (WorkingSet svCtx) !! id' = Some input ->
     inputTimelocked svCtx input = true ->
     TxSemanticTimelock svCtx = Err ErrInvalidInputUnlock) /\
  TxSemanticDeposit svCtx' = Err ErrInputOutputSumMismatch /\
  (inputTimelocked svCtx o = true ->
     TxSemanticTimelock svCtx' = Err ErrInvalidInputUnlock).
Proof.
  intros He Hwf Hfresh _ Hwfo Hdep Hpass svCtx'.
  destruct (TxSemanticDeposit_unfold svCtx essence He Hwf)
    as (rets & outs & _ & _ & Hin & Hstep).
  assert (inSum (InputSet (WorkingSet svCtx)) = outSum (Outputs essence)) as Hbal.
  { rewrite Hstep in Hpass. case_decide; [assumption|discriminate]. }
  split; [|split; [|split]].
  - exists rets. exact Hin.
  - intros id' input. apply TxSemanticTimelock_entry.
  - assert (wfInputSet (InputSet (WorkingSet svCtx'))) as Hwf'.
    { apply map_Forall_insert_2; assumption. }
    destruct (TxSemanticDeposit_unfold svCtx' essence He Hwf')
      as (rets' & outs' & _ & _ & _ & Hstep').
    rewrite Hstep'. case_decide as Heq; [exfalso|reflexivity].
    cbn [svCtx' with_InputSet WorkingSet InputSet] in Heq.
    unfold inSum in Heq, Hbal. rewrite inputDeposits_insert in Heq by exact Hfresh.
    rewrite <- Hbal in Heq. unfold outSum in Heq.
    exact (u64_shift _ _ Hdep Heq).
  - intros Ht. apply (TxSemanticTimelock_entry svCtx' id o).
    + apply lookup_insert_eq.
    + unfold svCtx'. rewrite inputTimelocked_with_InputSet. exact Ht.
Qed.

(** The minimal transfer with one more, unreferenced, entry of 1 000 000 in
    the input set. *)
Definition strayOutput : Output :=
  OExtended (mkExtendedOutput (Ed25519Address 13) 1000000 []
               [TimelockMilestoneIndexFeatureBlock 11]).

Lemma steps_range_over_InputSet_witness :
  TxSemanticDeposit (with_InputSet (<[(2, 0) := strayOutput]> transferInputs) transferCtx)
    = Err ErrInputOutputSumMismatch /\
  TxSemanticTimelock (with_InputSet (<[(2, 0) := strayOutput]> transferInputs) transferCtx)
    = Err ErrInvalidInputUnlock.
Proof.
  pose proof (steps_range_over_InputSet transferCtx
                (mkTransactionEssence [UTXOInput 1 0] transferOutputs None)
                (2, 0) strayOutput eq_refl transferInputs_wf eq_refl) as Hthm.
  assert (Forall (fun input => Input_Ref input <> (2, 0))
            (Inputs (mkTransactionEssence [UTXOInput 1 0] transferOutputs None))) as Href.
  { repeat constructor. discriminate. }
  assert (0 < Output_Deposit strayOutput < 2 ^ 64) as Hdep by (simpl; lia).
  destruct (Hthm Href eq_refl Hdep eq_refl) as (_ & _ & Hd & Ht).
  split; [exact Hd|exact (Ht eq_refl)].
Defined.

(** ** Native tokens *)

Lemma NativeTokenSum_Balanced_refl (s : gmap Z Z) : NativeTokenSum_Balanced s s = Ok tt.
Proof. unfold NativeTokenSum_Balanced. case_decide; [reflexivity|contradiction]. Qed.

(** Without a foundry on either side the verdict of the step is decided by
    the input side alone: whatever native tokens the outputs hold, the step
    passes as soon as the input side sums without overflow. *)
Lemma TxSemanticNativeTokens_no_foundry (svCtx : SemanticValidationContext) (s : gmap Z Z) :
  noFoundry (OutputsByType (WorkingSet svCtx)) = true ->
  noFoundry (InputsByType (WorkingSet svCtx)) = true ->
  NativeTokenOutputs_Sum (OutputsByType_NativeTokenOutputs (InputsByType (WorkingSet svCtx)))
    = Ok s ->
  TxSemanticNativeTokens svCtx
    = (Ok tt, with_OutNativeTokens s (with_InNativeTokens s svCtx)).
Proof.
  intros Ho Hi Hs. unfold TxSemanticNativeTokens. rewrite Hs.
  cbn [with_InNativeTokens with_OutNativeTokens WorkingSet InputsByType OutputsByType
       InNativeTokens OutNativeTokens].
  rewrite Hs, Ho, Hi. cbn [andb]. rewrite NativeTokenSum_Balanced_refl. reflexivity.
Qed.

(** A transaction that consumes 5 units of native token 77 and puts 500
    units of it into its output; no foundry on either side. *)
Definition mintInputs : gmap (Z * Z) Output :=
  {[ (1, 0) := OExtended (mkExtendedOutput (Ed25519Address 11) 1000000
                            [mkNativeToken 77 5] []) ]}.

Definition mintOutputs : list Output :=
  [OExtended (mkExtendedOutput (Ed25519Address 12) 1000000 [mkNativeToken 77 500] [])].

Definition mintCtx : SemanticValidationContext :=
  mkSemanticValidationContext 10 1700000000
    (mkWorkingSet ∅ mintInputs
       (mkTransaction (Some (mkTransactionEssence [UTXOInput 1 0] mintOutputs None))
          [SignatureUnlockBlock (mkSignature 0 0)])
       0 (InputSet_ToOutputsByType mintInputs) ∅ ∅
       (Outputs_ToOutputsByType mintOutputs) ∅ ∅).

(** C1: at a transaction whose output side holds 500 units of a native
    token of which the input side holds 5, with no foundry on either side,
    the step of the source passes, and stores the input-side sum as the
    output-side sum; the step with the two sums taken from their own sides
    rejects the transaction with [ErrNativeTokenSumUnbalanced]. *)
Theorem TxSemanticNativeTokens_resums_inputs :
  fst (TxSemanticNativeTokens mintCtx) = Ok tt /\
  OutNativeTokens (WorkingSet (snd (TxSemanticNativeTokens mintCtx))) = {[ 77 := 5 ]} /\
  NativeTokenOutputs_Sum (OutputsByType_NativeTokenOutputs (OutputsByType (WorkingSet mintCtx)))
    = Ok {[ 77 := 500 ]} /\
  NativeTokens_spec mintCtx = Err ErrNativeTokenSumUnbalanced.
Proof. vm_compute. repeat split; reflexivity. Qed.

(** ** Unlock resolution *)

(** The expiration conditions of an output, as the specification words
    them: an expiration feature block is present, and every expiration
    feature block present is past under the context. *)
Definition isExpiration (fb : FeatureBlock) : bool :=
  match fb with
  | ExpirationMilestoneIndexFeatureBlock _ | ExpirationUnixFeatureBlock _ => true
  | _ => false
  end.

Definition expired (svCtx : SemanticValidationContext) (fb : FeatureBlock) : bool :=
  match fb with
  | ExpirationMilestoneIndexFeatureBlock idx => idx <=? ConfirmingMilestoneIndex svCtx
  | ExpirationUnixFeatureBlock ts => ts <=? ConfirmingMilestoneUnix svCtx
  | _ => true
  end.

Definition expirationPast (svCtx : SemanticValidationContext) (blocks : list FeatureBlock)
    : bool :=
  forallb (expired svCtx) blocks.

Lemma findBlock_unique blocks fb :
  uniqueKinds blocks = true -> fb ∈ blocks ->
  findBlock (FeatureBlock_Type fb) blocks = Some fb.
Proof.
  intros Hu Hin. apply bool_decide_eq_true_1 in Hu.
  induction blocks as [|b rest IH]; [by apply not_elem_of_nil in Hin|].
  simpl in Hu. apply NoDup_cons in Hu as [Hnotin Hnd].
  unfold findBlock. simpl.
  apply elem_of_cons in Hin as [->|Hin].
  - rewrite Z.eqb_refl. reflexivity.
  - destruct (Z.eqb_spec (FeatureBlock_Type b) (FeatureBlock_Type fb)) as [Heq|_].
    + exfalso. apply Hnotin. rewrite Heq.
      apply list_elem_of_fmap. exists fb. split; [reflexivity|exact Hin].
    + apply IH; assumption.
Qed.

(** With every kind at most once, the conjunction over the blocks is the
    conjunction over the two expiration kinds. *)
Lemma expirationPast_find svCtx blocks :
  uniqueKinds blocks = true ->
  expirationPast svCtx blocks =
    match findBlock FeatureBlockExpirationMilestoneIndex blocks with
    | Some fb => expired svCtx fb
    | None => true
    end &&
    match findBlock FeatureBlockExpirationUnix blocks with
    | Some fb => expired svCtx fb
    | None => true
    end.
Proof.
  intros Hu. apply eq_true_iff_eq. unfold expirationPast.
  rewrite forallb_forall, andb_true_iff. split.
  - intros Hall. split.
    + destruct (findBlock FeatureBlockExpirationMilestoneIndex blocks) as [fb|] eqn:Hf;
        [|reflexivity].
      apply findBlock_type in Hf as [_ Hin]. apply Hall. by apply list_elem_of_In.
    + destruct (findBlock FeatureBlockExpirationUnix blocks) as [fb|] eqn:Hf;
        [|reflexivity].
      apply findBlock_type in Hf as [_ Hin]. apply Hall. by apply list_elem_of_In.
  - intros [Hms Hux] fb Hin. apply list_elem_of_In in Hin.
    pose proof (findBlock_unique blocks fb Hu Hin) as Hf.
    destruct fb; try reflexivity.
    + change (FeatureBlock_Type (ExpirationMilestoneIndexFeatureBlock milestoneIndex))
        with FeatureBlockExpirationMilestoneIndex in Hf.
      rewrite Hf in Hms. exact Hms.
    + change (FeatureBlock_Type (ExpirationUnixFeatureBlock unixTime))
        with FeatureBlockExpirationUnix in Hf.
      rewrite Hf in Hux. exact Hux.
Qed.

Lemma hasExpiration_find blocks :
  existsb isExpiration blocks = true ->
  findBlock FeatureBlockExpirationMilestoneIndex blocks <> None \/
  findBlock FeatureBlockExpirationUnix blocks <> None.
Proof.
  intros He. apply existsb_exists in He as [fb [Hin Hfb]].
  apply list_elem_of_In in Hin.
  destruct fb; try discriminate.
  - left. intros Hn. exact (findBlock_none _ _ Hn _ Hin eq_refl).
  - right. intros Hn. exact (findBlock_none _ _ Hn _ Hin eq_refl).
Qed.

Section UnlockProperties.
Context `{Capabilities}.

(** The alias id [identToUnlockFromMultiIdentOutput] works with. *)
Definition resolvedAliasID (inputAliasOutput : AliasOutput) (input : Input) : AliasID :=
  if AliasID_Empty (ao_AliasID inputAliasOutput)
  then AliasIDFromOutputID (Input_Ref input)
  else ao_AliasID inputAliasOutput.

(** Destruction or governance transition of the alias, as the
    specification words it. *)
Definition governanceTransition (svCtx : SemanticValidationContext)
    (inputAliasOutput : AliasOutput) (aliasID : AliasID) : Prop :=
  OutChains (WorkingSet svCtx) !! ChainAlias aliasID = None \/
  exists outputAliasOutput,
    OutChains (WorkingSet svCtx) !! ChainAlias aliasID = Some (OAlias outputAliasOutput) /\
    ao_StateIndex inputAliasOutput = ao_StateIndex outputAliasOutput.

(** C5: for an alias output consumed as input, the alias id is the
    output's own id or, if that is zeroed, the id derived from the
    referenced output id; the identity to unlock is the governance
    controller exactly when that id has no chain on the output side or the
    output-side alias has the same state index, and the state controller
    otherwise. *)
Theorem identToUnlock_alias (svCtx : SemanticValidationContext)
    (inputAliasOutput : AliasOutput) (inputIndex : nat)
    (essence : TransactionEssence) (input : Input) :
  Essence (Tx (WorkingSet svCtx)) = Some essence ->
  (Inputs essence : list Input) !! inputIndex = Some input ->
  (forall o, OutChains (WorkingSet svCtx)
               !! ChainAlias (resolvedAliasID inputAliasOutput input) = Some o ->
             exists outputAliasOutput, o = OAlias outputAliasOutput) ->
  let aliasID := resolvedAliasID inputAliasOutput input in
  (AliasID_Empty (ao_AliasID inputAliasOutput) = false ->
     aliasID = ao_AliasID inputAliasOutput) /\
  (AliasID_Empty (ao_AliasID inputAliasOutput) = true ->
     aliasID = AliasIDFromOutputID (Input_Ref input)) /\
  (governanceTransition svCtx inputAliasOutput aliasID ->
     identToUnlock svCtx (OAlias inputAliasOutput) inputIndex
       = Ok (ao_GovernanceController inputAliasOutput)) /\
  (~ governanceTransition svCtx inputAliasOutput aliasID ->
     identToUnlock svCtx (OAlias inputAliasOutput) inputIndex
       = Ok (ao_StateController inputAliasOutput)).
Proof.
  intros He Hin Halias aliasID.
  assert (identToUnlock svCtx (OAlias inputAliasOutput) inputIndex =
          match OutChains (WorkingSet svCtx) !! ChainAlias aliasID with
          | None => Ok (ao_GovernanceController inputAliasOutput)
          | Some (OAlias outputAliasOutput) =>
              if ao_StateIndex inputAliasOutput =? ao_StateIndex outputAliasOutput
              then Ok (ao_GovernanceController inputAliasOutput)
              else Ok (ao_StateController inputAliasOutput)
          | Some _ => Panic
          end) as Hstep.
  { unfold aliasID, resolvedAliasID. cbn [identToUnlock].
    unfold identToUnlockFromMultiIdentOutput, Transaction_essence.
    rewrite He. cbn [mbind result_bind rbind]. rewrite Hin.
    destruct (AliasID_Empty (ao_AliasID inputAliasOutput)); reflexivity. }
  unfold aliasID, resolvedAliasID in *.
  split; [intros ->; reflexivity|split; [intros ->; reflexivity|]].
  rewrite Hstep. unfold governanceTransition.
  destruct (OutChains (WorkingSet svCtx) !! ChainAlias _) as [o|] eqn:Hl.
  - destruct (Halias o eq_refl) as [out ->].
    destruct (Z.eqb_spec (ao_StateIndex inputAliasOutput) (ao_StateIndex out)) as [Heq|Hne].
    + split; [reflexivity|]. intros Hn. exfalso. apply Hn. right. eauto.
    + split; [|reflexivity].
      intros [Hnone|[out' [[= <-] Heq]]]; [discriminate|contradiction].
  - split; [reflexivity|]. intros Hn. exfalso. apply Hn. left. reflexivity.
Qed.

Lemma checkSender_expiration svCtx output blocks sender :
  Output_FeatureBlocks output = Some blocks ->
  uniqueKinds blocks = true ->
  SenderFeatureBlock sender ∈ blocks ->
  existsb isExpiration blocks = true ->
  checkSenderFeatureBlockIdentUnlock svCtx output =
    Ok (if expirationPast svCtx blocks then Some sender else None).
Proof.
  intros Hb Hu Hs He. unfold checkSenderFeatureBlockIdentUnlock. rewrite Hb.
  destruct (FeatureBlocks_Set_ok blocks Hu) as [set [Hok Hl]].
  rewrite Hok. cbn [mbind result_bind rbind]. rewrite !Hl.
  rewrite (expirationPast_find svCtx blocks Hu).
  pose proof (findBlock_unique blocks _ Hu Hs) as Hfs.
  change (FeatureBlock_Type (SenderFeatureBlock sender)) with FeatureBlockSender in Hfs.
  rewrite Hfs.
  pose proof (hasExpiration_find blocks He) as Hex.
  destruct (findBlock FeatureBlockExpirationMilestoneIndex blocks) as [ms|] eqn:Hms;
    destruct (findBlock FeatureBlockExpirationUnix blocks) as [ux|] eqn:Hux.
  - apply findBlock_type in Hms as [Hms _]. apply findBlock_type in Hux as [Hux _].
    destruct ms; try discriminate. destruct ux; try discriminate.
    cbn [expired]. destruct (_ <=? _), (_ <=? _); reflexivity.
  - apply findBlock_type in Hms as [Hms _].
    destruct ms; try discriminate. cbn [expired]. rewrite andb_true_r.
    destruct (_ <=? _); reflexivity.
  - apply findBlock_type in Hux as [Hux _].
    destruct ux; try discriminate. cbn [expired andb].
    destruct (_ <=? _); reflexivity.
  - destruct Hex as [Hex|Hex]; contradiction.
Qed.

(** C6: for an input that carries an expiration feature block together
    with a sender feature block, the identity to unlock is the sender's
    address exactly when the expiration is past under the context
    (milestone index at most the confirming index, unix time at most the
    confirming time, both when both kinds are present); otherwise it is
    the identity the output resolves to by itself. *)
Theorem targetIdentOf_expiration (svCtx : SemanticValidationContext) (output : Output)
    (inputIndex : nat) (blocks : list FeatureBlock) (sender ident : Address) :
  Output_FeatureBlocks output = Some blocks ->
  uniqueKinds blocks = true ->
  SenderFeatureBlock sender ∈ blocks ->
  existsb isExpiration blocks = true ->
  identToUnlock svCtx output inputIndex = Ok ident ->
  targetIdentOf svCtx output inputIndex =
    Ok (if expirationPast svCtx blocks then sender else ident) /\
  (forall idx, expired svCtx (ExpirationMilestoneIndexFeatureBlock idx)
               = bool_decide (idx <= ConfirmingMilestoneIndex svCtx)) /\
  (forall ts, expired svCtx (ExpirationUnixFeatureBlock ts)
              = bool_decide (ts <= ConfirmingMilestoneUnix svCtx)) /\
  (expirationPast svCtx blocks = true <->
     forall fb, fb ∈ blocks -> expired svCtx fb = true).
Proof.
  intros Hb Hu Hs He Hid. split; [|split; [|split]].
  - unfold targetIdentOf. rewrite Hid. cbn [mbind result_bind rbind].
    rewrite (checkSender_expiration svCtx output blocks sender Hb Hu Hs He).
    destruct (expirationPast svCtx blocks); reflexivity.
  - intros idx. simpl. destruct (Z.leb_spec idx (ConfirmingMilestoneIndex svCtx));
      [rewrite bool_decide_eq_true_2|rewrite bool_decide_eq_false_2]; auto; lia.
  - intros ts. simpl. destruct (Z.leb_spec ts (ConfirmingMilestoneUnix svCtx));
      [rewrite bool_decide_eq_true_2|rewrite bool_decide_eq_false_2]; auto; lia.
  - unfold expirationPast. rewrite forallb_forall.
    split; intros Hall fb Hin; apply Hall; by apply list_elem_of_In.
Qed.


End UnlockProperties.

(** *** Concrete unlocks

    Stand-ins for the cryptographic collaborators: a signature unlocks
    the Ed25519 address that equals its public key when it repeats the
    signing message. *)
Definition exampleCapabilities : Capabilities :=
  mkCapabilities
    (fun data => sumZ data)
    (fun outputID => 1000 + 65536 * fst outputID + snd outputID)
    (fun ident msg signature =>
       match ident with
       | Ed25519Address h =>
           if (sig_PublicKey signature =? h) && (sig_Signature signature =? msg)
           then None else Some ErrSignatureAndAddrIncompatible
       | _ => Some ErrSignatureAndAddrIncompatible
       end).

Definition unlockCtx (outChains : gmap ChainID Output) (unlocked : gmap (Z * Z) Z)
    : SemanticValidationContext :=
  mkSemanticValidationContext 10 1700000000
    (mkWorkingSet unlocked ∅
       (mkTransaction (Some (mkTransactionEssence [UTXOInput 1 0] [] None))
          [SignatureUnlockBlock (mkSignature 11 42)])
       42 ∅ ∅ ∅ ∅ outChains ∅).

Definition exampleAlias (stateIndex : Z) : AliasOutput :=
  mkAliasOutput 1000000 [] 5 (Ed25519Address 11) (Ed25519Address 12) stateIndex 0 [].

(** An alias whose state index stays at 3: a governance transition. *)
Lemma identToUnlock_alias_witness :
  @identToUnlock exampleCapabilities
     (unlockCtx {[ ChainAlias 5 := OAlias (exampleAlias 3) ]} ∅)
     (OAlias (exampleAlias 3)) 0
  = Ok (Ed25519Address 12).
Proof.
  refine (proj1 (proj2 (proj2
            (@identToUnlock_alias exampleCapabilities
               (unlockCtx {[ ChainAlias 5 := OAlias (exampleAlias 3) ]} ∅)
               (exampleAlias 3) 0%nat
               (mkTransactionEssence [UTXOInput 1 0] [] None) (UTXOInput 1 0)
               eq_refl eq_refl _))) _).
  - intros o Ho. exists (exampleAlias 3).
    change (resolvedAliasID (exampleAlias 3) (UTXOInput 1 0)) with 5 in Ho.
    cbn [unlockCtx WorkingSet OutChains] in Ho.
    rewrite lookup_singleton_eq in Ho. congruence.
  - right. exists (exampleAlias 3). split; [|reflexivity].
    change (resolvedAliasID (exampleAlias 3) (UTXOInput 1 0)) with 5.
    cbn [unlockCtx WorkingSet OutChains]. apply lookup_singleton_eq.
Defined.

Example identToUnlock_alias_state_change :
  @identToUnlock exampleCapabilities
     (unlockCtx {[ ChainAlias 5 := OAlias (exampleAlias 4) ]} ∅)
     (OAlias (exampleAlias 3)) 0
  = Ok (Ed25519Address 11).
Proof. vm_compute. reflexivity. Qed.

Example identToUnlock_alias_destroyed :
  @identToUnlock exampleCapabilities (unlockCtx ∅ ∅) (OAlias (exampleAlias 3)) 0
  = Ok (Ed25519Address 12).
Proof. vm_compute. reflexivity. Qed.

(** An extended output with a sender and a unix expiration. *)
Definition expiringOutput (unixTime : Z) : Output :=
  OExtended (mkExtendedOutput (Ed25519Address 11) 1000000 []
               [SenderFeatureBlock (Ed25519Address 21);
                ExpirationUnixFeatureBlock unixTime]).

Lemma targetIdentOf_expiration_witness :
  @targetIdentOf exampleCapabilities (unlockCtx ∅ ∅) (expiringOutput 1700000000) 0
  = Ok (Ed25519Address 21).
Proof.
  refine (proj1 (@targetIdentOf_expiration exampleCapabilities (unlockCtx ∅ ∅)
                   (expiringOutput 1700000000) 0%nat
                   [SenderFeatureBlock (Ed25519Address 21);
                    ExpirationUnixFeatureBlock 1700000000]
                   (Ed25519Address 21) (Ed25519Address 11)
                   eq_refl eq_refl _ eq_refl eq_refl)).
  left.
Defined.

Example targetIdentOf_not_expired :
  @targetIdentOf exampleCapabilities (unlockCtx ∅ ∅) (expiringOutput 1700000001) 0
  = Ok (Ed25519Address 11).
Proof. vm_compute. reflexivity. Qed.


Example unlockOutput_signature_twice :
  fst (@unlockOutput exampleCapabilities
         (unlockCtx ∅ {[ Address_Key (Ed25519Address 11) := 0 ]})
         (OSimple (mkSimpleOutput (Ed25519Address 11) 1000000)) 0)
  = Err ErrInvalidInputUnlock.
Proof. vm_compute. reflexivity. Qed.

(** ** Counts of inputs, outputs and unlock blocks *)





Section CountRules.
Context `{Capabilities} `{ElementCodec}.


End CountRules.

(** An essence with 128 distinct inputs and 128 outputs of one token each. *)
Definition crowdedEssence : TransactionEssence :=
  mkTransactionEssence
    (map (fun i => UTXOInput (Z.of_nat i) 0) (seq 0 128))
    (map (fun i => OSimple (mkSimpleOutput (Ed25519Address (Z.of_nat i)) 1)) (seq 0 128))
    None.


(** ** The transaction id *)

Section TransactionID.
Context `{Capabilities} `{ElementCodec}.






End TransactionID.

(** *** A concrete transaction without inputs

    Stand-ins for the encoders of the elements: the type byte followed by
    the fields in little-endian order. *)
Definition exampleCodec : ElementCodec :=
  mkElementCodec
    (fun _ i => match i with
                | UTXOInput txid idx => Ok (0 :: le_bytes 32 txid ++ le_bytes 2 idx)
                end)
    (fun _ o => Ok (Output_Type o :: le_bytes 8 (Output_Deposit o)))
    (fun _ p => match p with
                | Indexation index data => Ok (le_bytes 4 2 ++ index ++ data)
                | OtherPayload ty data => Ok (le_bytes 4 ty ++ data)
                end)
    (fun _ u => match u with
                | SignatureUnlockBlock s =>
                    Ok (0 :: le_bytes 32 (sig_PublicKey s) ++ le_bytes 64 (sig_Signature s))
                | ReferenceUnlockBlock r => Ok (1 :: le_bytes 2 r)
                | AliasUnlockBlock r => Ok (2 :: le_bytes 2 r)
                | NFTUnlockBlock r => Ok (3 :: le_bytes 2 r)
                end)
    (fun _ _ => Ok tt)
    (fun _ => Ok tt).

Definition emptyEssence : TransactionEssence :=
  mkTransactionEssence [] (Outputs crowdedEssence) None.

Definition emptyTransaction : Transaction :=
  mkTransaction (Some emptyEssence) [ReferenceUnlockBlock 0].


(** *** A transaction with one input and no unlock block *)

Definition lockedOutTransaction : Transaction :=
  mkTransaction (Some (mkTransactionEssence [UTXOInput 1 0] transferOutputs None)) [].


Example lockedOut_serialize :
  @Transaction_Serialize exampleCapabilities exampleCodec lockedOutTransaction
     DeSeriModePerformValidation (Some (mkDeSerializationParameters 0 0))
  = Err ErrArrayValidationMinElementsNotReached.
Proof. vm_compute. reflexivity. Qed.

(** * The rest of the semantic validation *)

(** ** TxSemanticOutputsSender *)

Fixpoint outputsSender (unlocked : gmap (Z * Z) Z) (outputs : list Output) : result unit :=
  match outputs with
  | [] => Ok tt
  | output :: rest =>
      match Output_FeatureBlocks output with
      | None => outputsSender unlocked rest
      | Some blocks =>
          featureBlocks ← FeatureBlocks_Set blocks;
          match featureBlocks !! FeatureBlockSender with
          | None => outputsSender unlocked rest
          | Some (SenderFeatureBlock sender) =>
              match unlocked !! Address_Key sender with
              | None => Err ErrSenderFeatureBlockNotUnlocked
              | Some _ => outputsSender unlocked rest
              end
          | Some _ => Panic
          end
      end
  end.

Definition TxSemanticOutputsSender (svCtx : SemanticValidationContext) : result unit :=
  essence ← Transaction_essence (Tx (WorkingSet svCtx));
  outputsSender (UnlockedIdents (WorkingSet svCtx)) (Outputs essence).

(** ** TxSemanticSTVFOnChains

    The state transition validation functions of the chain constrained
    outputs and the two functions that collect the chains of each side are
    not in the sources: they are parameters.  [None] is Go's nil error. *)

Inductive ChainTransitionType : Type :=
| ChainTransitionTypeGenesis
| ChainTransitionTypeStateChange
| ChainTransitionTypeDestroy.

Class ChainCapabilities : Type := mkChainCapabilities {
  ValidateStateTransition :
    Output -> ChainTransitionType -> option Output -> SemanticValidationContext
    -> option error;
  OutputSet_ChainConstrainedOutputSet : gmap (Z * Z) Output -> gmap ChainID Output;
  Outputs_ChainConstrainedOutputSet : list Output -> Z -> gmap ChainID Output
}.

Section Chains.
Context `{ChainCapabilities}.

Fixpoint stvfInChains (svCtx : SemanticValidationContext)
    (entries : list (ChainID * Output)) : result unit :=
  match entries with
  | [] => Ok tt
  | (chainID, inputChain) :: rest =>
      match OutChains (WorkingSet svCtx) !! chainID with
      | None =>
          match ValidateStateTransition inputChain ChainTransitionTypeDestroy None svCtx with
          | Some e => Err e
          | None => stvfInChains svCtx rest
          end
      | Some nextState =>
          match ValidateStateTransition inputChain ChainTransitionTypeStateChange
                  (Some nextState) svCtx with
          | Some e => Err e
          | None => stvfInChains svCtx rest
          end
      end
  end.

Fixpoint stvfOutChains (svCtx : SemanticValidationContext)
    (entries : list (ChainID * Output)) : result unit :=
  match entries with
  | [] => Ok tt
  | (chainID, outputChain) :: rest =>
      match InChains (WorkingSet svCtx) !! chainID with
      | None =>
          match ValidateStateTransition outputChain ChainTransitionTypeGenesis None svCtx with
          | Some e => Err e
          | None => stvfOutChains svCtx rest
          end
      | Some _ => stvfOutChains svCtx rest
      end
  end.

Definition TxSemanticSTVFOnChains (svCtx : SemanticValidationContext) : result unit :=
  stvfInChains svCtx (map_to_list (InChains (WorkingSet svCtx)));;
  stvfOutChains svCtx (map_to_list (OutChains (WorkingSet svCtx))).

End Chains.

(** ** The pipeline *)

Fixpoint runSemanticValidations (svCtx : SemanticValidationContext)
    (checks : list (SemanticValidationContext -> result unit * SemanticValidationContext))
    : result unit * SemanticValidationContext :=
  match checks with
  | [] => (Ok tt, svCtx)
  | check :: rest =>
      match check svCtx with
      | (Ok _, svCtx') => runSemanticValidations svCtx' rest
      | r => r
      end
  end.

(** A check that only reads the context. *)
Definition readOnly (check : SemanticValidationContext -> result unit)
    (svCtx : SemanticValidationContext) : result unit * SemanticValidationContext :=
  (check svCtx, svCtx).

Section Pipeline.
Context `{Capabilities} `{ElementCodec} `{ChainCapabilities}.

(** [PerformValidation | PerformLexicalOrdering] *)
Definition SigningMessage (u : TransactionEssence) : result Z :=
  essenceBytes ← TransactionEssence_Serialize u
    (Z.lor DeSeriModePerformValidation DeSeriModePerformLexicalOrdering);
  Ok (blake2b_Sum256 essenceBytes).

(** [UnlockBlocksByType] is filled by the source too; no function of the
    sources reads it, and the working set of the model leaves it out. *)
Definition NewSemValiContextWorkingSet (t : Transaction) (inputs : gmap (Z * Z) Output)
    : result SemValiContextWorkingSet :=
  essence ← Transaction_essence t;
  essenceMsgToSign ← SigningMessage essence;
  txID ← Transaction_ID t;
  Ok (mkWorkingSet ∅ inputs t essenceMsgToSign
        (InputSet_ToOutputsByType inputs)
        (OutputSet_ChainConstrainedOutputSet inputs)
        ∅
        (Outputs_ToOutputsByType (Outputs essence))
        (Outputs_ChainConstrainedOutputSet (Outputs essence) txID)
        ∅).

Definition semanticChecks
    : list (SemanticValidationContext -> result unit * SemanticValidationContext) :=
  [TxSemanticInputUnlocks;
   readOnly TxSemanticDeposit;
   TxSemanticNativeTokens;
   readOnly TxSemanticTimelock;
   readOnly TxSemanticOutputsSender;
   readOnly TxSemanticSTVFOnChains].

(** [SemanticallyValidate] sets the working set of the context and runs
    the checks; the variadic [semValFuncs] of the source are never read.
    When the working set cannot be built the source leaves a nil working
    set behind: the context of the result is [None]. *)
Definition SemanticallyValidate (svCtx : SemanticValidationContext) (t : Transaction)
    (inputs : gmap (Z * Z) Output) : result unit * option SemanticValidationContext :=
  match NewSemValiContextWorkingSet t inputs with
  | Ok workingSet =>
      let svCtx := mkSemanticValidationContext (ConfirmingMilestoneIndex svCtx)
                     (ConfirmingMilestoneUnix svCtx) workingSet in
      let r := runSemanticValidations svCtx semanticChecks in
      (fst r, Some (snd r))
  | Err e => (Err e, None)
  | Panic => (Panic, None)
  end.

End Pipeline.

(** * Further properties *)

(** ** Senders of the outputs *)

(** The sender an output names is among the unlocked identities. *)
Definition senderUnlocked (unlocked : gmap (Z * Z) Z) (output : Output) : bool :=
  match Output_FeatureBlocks output with
  | None => true
  | Some blocks =>
      match findBlock FeatureBlockSender blocks with
      | Some (SenderFeatureBlock sender) =>
          bool_decide (is_Some (unlocked !! Address_Key sender))
      | _ => true
      end
  end.

Definition uniqueKindsOutput (output : Output) : bool :=
  uniqueKinds (default [] (Output_FeatureBlocks output)).

Lemma outputsSender_spec unlocked outputs :
  Forall (fun o => uniqueKindsOutput o = true) outputs ->
  outputsSender unlocked outputs =
    if forallb (senderUnlocked unlocked) outputs then Ok tt
    else Err ErrSenderFeatureBlockNotUnlocked.
Proof.
  induction 1 as [|output rest Hu _ IH]; [reflexivity|].
  cbn [outputsSender forallb]. unfold senderUnlocked at 1. unfold uniqueKindsOutput in Hu.
  destruct (Output_FeatureBlocks output) as [blocks|]; [|exact IH].
  simpl in Hu. destruct (FeatureBlocks_Set_ok blocks Hu) as [set [Hok Hl]].
  rewrite Hok. cbn [mbind result_bind rbind]. rewrite Hl.
  destruct (findBlock FeatureBlockSender blocks) as [fb|] eqn:Hf; [|exact IH].
  apply findBlock_type in Hf as [Ht _].
  destruct fb; try discriminate.
  destruct (unlocked !! Address_Key address) as [v|] eqn:Hk.
  - rewrite bool_decide_eq_true_2 by eauto. exact IH.
  - rewrite bool_decide_eq_false_2; [reflexivity|]. intros [v Hv]. discriminate.
Qed.

(** X1: with every feature-block kind at most once per output, the
    OutputsSender step passes exactly when the sender of every output that
    carries a sender block is among the unlocked identities; otherwise it
    fails with [ErrSenderFeatureBlockNotUnlocked]. *)
Theorem TxSemanticOutputsSender_iff (svCtx : SemanticValidationContext)
    (essence : TransactionEssence) :
  Essence (Tx (WorkingSet svCtx)) = Some essence ->
  Forall (fun o => uniqueKindsOutput o = true) (Outputs essence) ->
  (TxSemanticOutputsSender svCtx = Ok tt <->
     forall output blocks sender,
       output ∈ Outputs essence ->
       Output_FeatureBlocks output = Some blocks ->
       SenderFeatureBlock sender ∈ blocks ->
       is_Some (UnlockedIdents (WorkingSet svCtx) !! Address_Key sender)) /\
  (TxSemanticOutputsSender svCtx <> Ok tt ->
     TxSemanticOutputsSender svCtx = Err ErrSenderFeatureBlockNotUnlocked).
Proof.
  intros He Hu. unfold TxSemanticOutputsSender, Transaction_essence. rewrite He.
  cbn [mbind result_bind rbind]. rewrite (outputsSender_spec _ _ Hu).
  destruct (forallb _ _) eqn:Hall.
  - split; [|congruence]. split; [intros _|reflexivity].
    intros output blocks sender Hin Hb Hs.
    rewrite forallb_forall in Hall.
    apply list_elem_of_In in Hin. specialize (Hall output Hin).
    rewrite Forall_forall in Hu. apply list_elem_of_In in Hin. specialize (Hu output Hin).
    unfold senderUnlocked in Hall. unfold uniqueKindsOutput in Hu.
    rewrite Hb in Hall, Hu. simpl in Hu.
    pose proof (findBlock_unique blocks _ Hu Hs) as Hf.
    change (FeatureBlock_Type (SenderFeatureBlock sender)) with FeatureBlockSender in Hf.
    rewrite Hf in Hall. by apply bool_decide_eq_true_1 in Hall.
  - split; [|reflexivity]. split; [discriminate|]. intros Hall'. exfalso.
    assert (forallb (senderUnlocked (UnlockedIdents (WorkingSet svCtx))) (Outputs essence)
            = true) as Ht; [|congruence].
    apply forallb_forall. intros output Hin. apply list_elem_of_In in Hin.
    unfold senderUnlocked.
    destruct (Output_FeatureBlocks output) as [blocks|] eqn:Hb; [|reflexivity].
    destruct (findBlock FeatureBlockSender blocks) as [fb|] eqn:Hf; [|reflexivity].
    destruct fb; try reflexivity.
    apply findBlock_type in Hf as [_ Hfin].
    apply bool_decide_eq_true_2. exact (Hall' output blocks address Hin Hb Hfin).
Qed.

(** An output that names sender 21, and the contexts with and without
    that sender unlocked. *)
Definition senderCtx (unlocked : gmap (Z * Z) Z) : SemanticValidationContext :=
  mkSemanticValidationContext 10 1700000000
    (mkWorkingSet unlocked ∅
       (mkTransaction
          (Some (mkTransactionEssence [UTXOInput 1 0]
                   [OExtended (mkExtendedOutput (Ed25519Address 12) 1000000 []
                                 [SenderFeatureBlock (Ed25519Address 21)])] None))
          [])
       0 ∅ ∅ ∅ ∅ ∅ ∅).

Lemma TxSemanticOutputsSender_iff_witness :
  TxSemanticOutputsSender (senderCtx ∅) = Err ErrSenderFeatureBlockNotUnlocked.
Proof.
  refine (proj2 (TxSemanticOutputsSender_iff (senderCtx ∅) _ eq_refl _) _).
  - repeat constructor.
  - vm_compute. discriminate.
Defined.

Example senderCtx_unlocked :
  TxSemanticOutputsSender (senderCtx {[ Address_Key (Ed25519Address 21) := 0 ]}) = Ok tt.
Proof. vm_compute. reflexivity. Qed.

(** ** State transitions of the chains *)

Section ChainProperties.
Context `{ChainCapabilities}.

(** The transition an input-side chain makes, and its verdict. *)
Definition inChainValid (svCtx : SemanticValidationContext) (chainID : ChainID)
    (inputChain : Output) : Prop :=
  match OutChains (WorkingSet svCtx) !! chainID with
  | None =>
      ValidateStateTransition inputChain ChainTransitionTypeDestroy None svCtx = None
  | Some nextState =>
      ValidateStateTransition inputChain ChainTransitionTypeStateChange (Some nextState) svCtx
      = None
  end.

Lemma stvfInChains_ok svCtx entries :
  stvfInChains svCtx entries = Ok tt <->
  Forall (fun e => inChainValid svCtx (fst e) (snd e)) entries.
Proof.
  induction entries as [|[chainID inputChain] rest IH]; simpl.
  - split; [constructor|reflexivity].
  - rewrite Forall_cons. unfold inChainValid at 1. simpl.
    destruct (OutChains (WorkingSet svCtx) !! chainID) as [nextState|];
      destruct (ValidateStateTransition _ _ _ _) as [e|];
      rewrite ?IH; split; try discriminate; try tauto; intros [Hd _]; discriminate.
Qed.

Lemma stvfOutChains_ok svCtx entries :
  stvfOutChains svCtx entries = Ok tt <->
  Forall (fun e : ChainID * Output =>
            InChains (WorkingSet svCtx) !! fst e = None ->
            ValidateStateTransition (snd e) ChainTransitionTypeGenesis None svCtx = None)
         entries.
Proof.
  induction entries as [|[chainID outputChain] rest IH]; simpl.
  - split; [constructor|reflexivity].
  - rewrite Forall_cons. simpl.
    destruct (InChains (WorkingSet svCtx) !! chainID) as [prev|].
    + rewrite IH. split; [intros Hr; split; [discriminate|exact Hr]|tauto].
    + destruct (ValidateStateTransition _ _ _ _) as [e|].
      * split; [discriminate|]. intros [Hd _]. specialize (Hd eq_refl). discriminate.
      * rewrite IH. tauto.
Qed.

(** X2: the STVF step passes exactly when every input-side chain without a
    counterpart on the output side passes its validation as [Destroy],
    every input-side chain with a counterpart passes it as [StateChange]
    towards that counterpart, and every output-side chain without a
    counterpart on the input side passes it as [Genesis]. *)
Theorem TxSemanticSTVFOnChains_iff (svCtx : SemanticValidationContext) :
  TxSemanticSTVFOnChains svCtx = Ok tt <->
  (forall chainID inputChain,
     InChains (WorkingSet svCtx) !! chainID = Some inputChain ->
     match OutChains (WorkingSet svCtx) !! chainID with
     | None =>
         ValidateStateTransition inputChain ChainTransitionTypeDestroy None svCtx = None
     | Some nextState =>
         ValidateStateTransition inputChain ChainTransitionTypeStateChange
           (Some nextState) svCtx = None
     end) /\
  (forall chainID outputChain,
     OutChains (WorkingSet svCtx) !! chainID = Some outputChain ->
     InChains (WorkingSet svCtx) !! chainID = None ->
     ValidateStateTransition outputChain ChainTransitionTypeGenesis None svCtx = None).
Proof.
  unfold TxSemanticSTVFOnChains.
  assert (forall a b : result unit, (a;; b) = Ok tt <-> a = Ok tt /\ b = Ok tt) as Hseq.
  { intros [[]| |] b; cbn [mbind result_bind rbind]; split;
      try discriminate; try tauto; intros [Hd _]; discriminate. }
  rewrite Hseq, stvfInChains_ok, stvfOutChains_ok, !Forall_forall.
  split; intros [Hin Hout]; split.
  - intros chainID inputChain Hl.
    apply (Hin (chainID, inputChain)). by apply elem_of_map_to_list.
  - intros chainID outputChain Hl.
    apply (Hout (chainID, outputChain)). by apply elem_of_map_to_list.
  - intros [chainID inputChain] Hl. apply elem_of_map_to_list in Hl.
    exact (Hin chainID inputChain Hl).
  - intros [chainID outputChain] Hl. apply elem_of_map_to_list in Hl.
    exact (Hout chainID outputChain Hl).
Qed.

End ChainProperties.

(** ** The order of the checks *)

(** X3: the checks run in order and stop at the first one that does not
    pass: the checks after it are not run, the result is the verdict of
    that check and the context is the one it left. *)
Theorem runSemanticValidations_first_failure
    (passed rest : list (SemanticValidationContext -> result unit * SemanticValidationContext))
    (check : SemanticValidationContext -> result unit * SemanticValidationContext)
    (svCtx svCtx' : SemanticValidationContext) :
  runSemanticValidations svCtx passed = (Ok tt, svCtx') ->
  fst (check svCtx') <> Ok tt ->
  runSemanticValidations svCtx (passed ++ check :: rest) = check svCtx'.
Proof.
  revert svCtx. induction passed as [|c cs IH]; intros svCtx Hrun Hfail; simpl in *.
  - injection Hrun as ->. destruct (check svCtx') as [[[]| |] c']; simpl in *;
      [contradiction|reflexivity|reflexivity].
  - destruct (c svCtx) as [[[]| |] c1]; try discriminate. apply IH; assumption.
Qed.

Lemma runSemanticValidations_app
    (cs1 cs2 : list (SemanticValidationContext -> result unit * SemanticValidationContext))
    (svCtx : SemanticValidationContext) :
  runSemanticValidations svCtx (cs1 ++ cs2) =
    match runSemanticValidations svCtx cs1 with
    | (Ok _, svCtx') => runSemanticValidations svCtx' cs2
    | r => r
    end.
Proof.
  revert svCtx. induction cs1 as [|c cs IH]; intros svCtx; simpl; [reflexivity|].
  destruct (c svCtx) as [[[]| |] c1]; [apply IH|reflexivity|reflexivity].
Qed.

Lemma runSemanticValidations_first_failure_witness :
  runSemanticValidations (timelockScenario 1699999999)
    ([readOnly TxSemanticOutputsSender] ++ readOnly TxSemanticTimelock
       :: [readOnly TxSemanticDeposit])
  = (Err ErrInvalidInputUnlock, timelockScenario 1699999999).
Proof.
  refine (runSemanticValidations_first_failure [readOnly TxSemanticOutputsSender]
            [readOnly TxSemanticDeposit] (readOnly TxSemanticTimelock)
            (timelockScenario 1699999999) (timelockScenario 1699999999) _ _).
  - vm_compute. reflexivity.
  - vm_compute. discriminate.
Defined.

(** ** The verdict of the NativeTokens step *)

Lemma nativeTokensRange_self (s : gmap Z Z) (outChains : gmap ChainID Output)
    (entries : list (Z * Z)) :
  Forall (fun e => s !! fst e = Some (snd e)) entries ->
  nativeTokensRange s outChains entries = Ok tt.
Proof.
  induction 1 as [|[id sum] rest Hl _ IH]; [reflexivity|].
  simpl in Hl. cbn [nativeTokensRange]. rewrite Hl, Z.eqb_refl. exact IH.
Qed.

Lemma nativeTokensRange_map_to_list (s : gmap Z Z) (outChains : gmap ChainID Output) :
  nativeTokensRange s outChains (map_to_list s) = Ok tt.
Proof.
  apply nativeTokensRange_self, Forall_forall. intros [id sum] Hin.
  by apply elem_of_map_to_list in Hin.
Qed.

(** X4: the verdict of the NativeTokens step is decided by the input side
    alone, on the balance route and on the foundry route alike: the step
    passes whenever the native tokens of the input side sum up without
    error, whatever the outputs hold and whichever foundries transition,
    and its only errors are those of that sum.  It never returns
    [ErrNativeTokenSumUnbalanced] of its own. *)
Theorem TxSemanticNativeTokens_verdict (svCtx : SemanticValidationContext) :
  fst (TxSemanticNativeTokens svCtx) =
    match NativeTokenOutputs_Sum
            (OutputsByType_NativeTokenOutputs (InputsByType (WorkingSet svCtx))) with
    | Ok _ => Ok tt
    | Err e => Err e
    | Panic => Panic
    end.
Proof.
  unfold TxSemanticNativeTokens.
  destruct (NativeTokenOutputs_Sum
              (OutputsByType_NativeTokenOutputs (InputsByType (WorkingSet svCtx))))
    as [s| |] eqn:Hs; [|reflexivity|reflexivity].
  cbn [with_InNativeTokens with_OutNativeTokens WorkingSet InputsByType OutputsByType
       InNativeTokens OutNativeTokens OutChains].
  rewrite Hs.
  cbn [with_InNativeTokens with_OutNativeTokens WorkingSet InputsByType OutputsByType
       InNativeTokens OutNativeTokens OutChains].
  destruct (noFoundry (OutputsByType (WorkingSet svCtx))
            && noFoundry (InputsByType (WorkingSet svCtx))).
  - cbn [fst]. apply NativeTokenSum_Balanced_refl.
  - cbn [fst]. rewrite !nativeTokensRange_map_to_list. reflexivity.
Qed.

(** A foundry on the output side, 5 units of token 77 in and 500 out,
    and no chain among the output chains: the foundry route passes too. *)
Definition foundryMintCtx : SemanticValidationContext :=
  mkSemanticValidationContext 10 1700000000
    (mkWorkingSet ∅ mintInputs
       (mkTransaction (Some (mkTransactionEssence [UTXOInput 1 0] mintOutputs None))
          [SignatureUnlockBlock (mkSignature 0 0)])
       0 (InputSet_ToOutputsByType mintInputs) ∅ ∅
       (Outputs_ToOutputsByType
          (OFoundry (mkFoundryOutput (Ed25519Address 12) 1 [] 9 0 1000 []) :: mintOutputs))
       ∅ ∅).

Example foundryMint_passes :
  fst (TxSemanticNativeTokens foundryMintCtx) = Ok tt /\
  NativeTokens_spec foundryMintCtx = Err ErrNativeTokenSumUnbalanced.
Proof. vm_compute. split; reflexivity. Qed.

(** ** The order of a range over a map *)

Lemma existsb_Permutation {A : Type} (f : A -> bool) (l1 l2 : list A) :
  l1 ≡ₚ l2 -> existsb f l1 = existsb f l2.
Proof.
  intros Hp. induction Hp; simpl; try congruence.
  - destruct (f x), (f y); reflexivity.
Qed.

Lemma forallb_Permutation {A : Type} (f : A -> bool) (l1 l2 : list A) :
  l1 ≡ₚ l2 -> forallb f l1 = forallb f l2.
Proof.
  intros Hp. induction Hp; simpl; try congruence.
  - destruct (f x), (f y); reflexivity.
Qed.

Lemma amountsFor_Permutation k l1 l2 :
  l1 ≡ₚ l2 -> amountsFor k l1 ≡ₚ amountsFor k l2.
Proof.
  intros Hp. unfold amountsFor. induction Hp; simpl.
  - reflexivity.
  - by apply Permutation_app_head.
  - rewrite !app_assoc. apply Permutation_app_tail, Permutation_app_comm.
  - etransitivity; eassumption.
Qed.

Lemma accumulated_Permutation o (l1 l2 : list Z) :
  l1 ≡ₚ l2 -> accumulated o l1 = accumulated o l2.
Proof.
  intros Hp. destruct l1 as [|x l1], l2 as [|y l2].
  - reflexivity.
  - apply Permutation_nil in Hp. discriminate.
  - symmetry in Hp. apply Permutation_nil in Hp. discriminate.
  - unfold accumulated. rewrite (sumZ_Permutation _ _ Hp). reflexivity.
Qed.

Lemma nativeTokensRange_spec other outChains entries :
  nativeTokensRange other outChains entries =
    if forallb (fun e : Z * Z =>
                  match other !! fst e with
                  | Some otherSum =>
                      (snd e =? otherSum)
                      || bool_decide
                           (is_Some (outChains
                                       !! ChainFoundry (NativeTokenID_FoundryID (fst e))))
                  | None =>
                      bool_decide
                        (is_Some (outChains
                                    !! ChainFoundry (NativeTokenID_FoundryID (fst e))))
                  end) entries
    then Ok tt else Err ErrNativeTokenSumUnbalanced.
Proof.
  induction entries as [|[id sum] rest IH]; [reflexivity|].
  cbn [nativeTokensRange forallb fst snd].
  destruct (other !! id) as [otherSum|].
  - destruct (sum =? otherSum); cbn [negb orb]; [exact IH|].
    destruct (outChains !! ChainFoundry (NativeTokenID_FoundryID id)) as [o|].
    + rewrite bool_decide_eq_true_2 by eauto. exact IH.
    + rewrite bool_decide_eq_false_2; [reflexivity|]. intros [? ?]. discriminate.
  - destruct (outChains !! ChainFoundry (NativeTokenID_FoundryID id)) as [o|].
    + rewrite bool_decide_eq_true_2 by eauto. exact IH.
    + rewrite bool_decide_eq_false_2; [reflexivity|]. intros [? ?]. discriminate.
Qed.

(** X5: the loops over Go maps give the same result for every order in
    which the entries are visited: the timelock loop, the loop that sums
    the deposits and returns of well-formed inputs, the loop that checks
    the returns, and the loops of the foundry route. *)
Theorem range_order_irrelevant :
  (forall svCtx (l1 l2 : list (Z * Z * Output)),
     l1 ≡ₚ l2 -> timelockRange svCtx l1 = timelockRange svCtx l2) /\
  (forall (l1 l2 : list (Z * Z * Output)) st,
     l1 ≡ₚ l2 ->
     Forall (fun e => wfOutput (snd e) = true) l1 ->
     u64 (fst st) = fst st ->
     depositInputs l1 st = depositInputs l2 st) /\
  (forall outs (l1 l2 : list (Z * Z * Z)),
     l1 ≡ₚ l2 -> depositReturns outs l1 = depositReturns outs l2) /\
  (forall other outChains (l1 l2 : list (Z * Z)),
     l1 ≡ₚ l2 ->
     nativeTokensRange other outChains l1 = nativeTokensRange other outChains l2).
Proof.
  split; [|split; [|split]].
  - intros svCtx l1 l2 Hp. rewrite !timelockRange_spec.
    rewrite (existsb_Permutation _ _ _ Hp). reflexivity.
  - intros l1 l2 st Hp Hwf Hst.
    assert (Forall (fun e : Z * Z * Output => wfOutput (snd e) = true) l2) as Hwf2.
    { rewrite <- Hp. exact Hwf. }
    destruct (depositInputs_wf l1 Hwf st Hst) as [[i1 m1] [Hok1 [Hf1 Hs1]]].
    destruct (depositInputs_wf l2 Hwf2 st Hst) as [[i2 m2] [Hok2 [Hf2 Hs2]]].
    rewrite Hok1, Hok2. simpl in *. f_equal. f_equal.
    + rewrite Hf1, Hf2. f_equal. f_equal. apply sumZ_Permutation, Permutation_map, Hp.
    + apply map_eq. intros k. rewrite Hs1, Hs2.
      apply accumulated_Permutation, amountsFor_Permutation, Permutation_map, Hp.
  - intros outs l1 l2 Hp. rewrite !depositReturns_spec.
    rewrite (forallb_Permutation _ _ _ Hp). reflexivity.
  - intros other outChains l1 l2 Hp. rewrite !nativeTokensRange_spec.
    rewrite (forallb_Permutation _ _ _ Hp). reflexivity.
Qed.

Lemma range_order_irrelevant_witness :
  depositInputs [((1, 0), strayOutput); ((1, 1), OSimple (mkSimpleOutput (Ed25519Address 3) 7))]
    (0, ∅)
  = depositInputs [((1, 1), OSimple (mkSimpleOutput (Ed25519Address 3) 7)); ((1, 0), strayOutput)]
      (0, ∅).
Proof.
  refine (proj1 (proj2 range_order_irrelevant) _ _ (0, ∅) _ _ eq_refl).
  - apply perm_swap.
  - repeat constructor.
Defined.

(** ** The unlocked identities *)

Lemma with_UnlockedIdents_same svCtx :
  with_UnlockedIdents (UnlockedIdents (WorkingSet svCtx)) svCtx = svCtx.
Proof. destruct svCtx as [idx unix []]. reflexivity. Qed.

Lemma Address_Key_chain a b :
  isChainConstrainedAddress a = true -> isChainConstrainedAddress b = false ->
  Address_Key b <> Address_Key a.
Proof. destruct a, b; simpl; intros; try discriminate; intros [=]. Qed.

Section UnlockInvariants.
Context `{Capabilities}.

Lemma targetIdentOf_with_UnlockedIdents u svCtx output inputIndex :
  targetIdentOf (with_UnlockedIdents u svCtx) output inputIndex
  = targetIdentOf svCtx output inputIndex.
Proof. reflexivity. Qed.

(** The ways [unlockOutput] returns. *)
Inductive unlocked_by (svCtx : SemanticValidationContext) (inputIndex : nat)
    (ident : Address) (block : UnlockBlock) : SemanticValidationContext -> Prop :=
| by_chain ref :
    isChainConstrainedAddress ident = true ->
    UnlockBlock_Ref block = Some ref ->
    UnlockedIdents (WorkingSet svCtx) !! Address_Key ident = Some ref ->
    unlocked_by svCtx inputIndex ident block svCtx
| by_chain_addressable ref address :
    isChainConstrainedAddress ident = true ->
    UnlockBlock_Ref block = Some ref ->
    UnlockedIdents (WorkingSet svCtx) !! Address_Key ident = Some ref ->
    isChainConstrainedAddress address = true ->
    unlocked_by svCtx inputIndex ident block
      (with_UnlockedIdents
         (<[Address_Key address := u16 (Z.of_nat inputIndex)]>
            (UnlockedIdents (WorkingSet svCtx))) svCtx)
| by_signature signature :
    isChainConstrainedAddress ident = false ->
    block = SignatureUnlockBlock signature ->
    UnlockedIdents (WorkingSet svCtx) !! Address_Key ident = None ->
    unlocked_by svCtx inputIndex ident block
      (with_UnlockedIdents
         (<[Address_Key ident := u16 (Z.of_nat inputIndex)]>
            (UnlockedIdents (WorkingSet svCtx))) svCtx)
| by_reference ref :
    isChainConstrainedAddress ident = false ->
    UnlockBlock_Ref block = Some ref ->
    UnlockedIdents (WorkingSet svCtx) !! Address_Key ident = Some ref ->
    unlocked_by svCtx inputIndex ident block svCtx.

Lemma unlockedThrough_true svCtx ident ref :
  unlockedThrough svCtx ident ref = true ->
  UnlockedIdents (WorkingSet svCtx) !! Address_Key ident = Some ref.
Proof.
  unfold unlockedThrough.
  destruct (UnlockedIdents (WorkingSet svCtx) !! Address_Key ident) as [v|];
    [|discriminate].
  intros Hd. apply bool_decide_eq_true_1 in Hd. congruence.
Qed.

Lemma unlockOutput_inv svCtx output inputIndex r svCtx' :
  unlockOutput svCtx output inputIndex = (r, svCtx') ->
  (r <> Ok tt /\ svCtx' = svCtx) \/
  (r = Ok tt /\
   exists ident block,
     targetIdentOf svCtx output inputIndex = Ok ident /\
     (UnlockBlocks (Tx (WorkingSet svCtx)) : list UnlockBlock) !! inputIndex = Some block /\
     unlocked_by svCtx inputIndex ident block svCtx').
Proof.
  unfold unlockOutput.
  destruct (targetIdentOf svCtx output inputIndex) as [ident| |] eqn:Ht;
    [|intros [= <- <-]; left; split; [discriminate|reflexivity]..].
  destruct ((UnlockBlocks (Tx (WorkingSet svCtx)) : list UnlockBlock) !! inputIndex)
    as [block|] eqn:Hb;
    [|intros [= <- <-]; left; split; [discriminate|reflexivity]].
  destruct (isChainConstrainedAddress ident) eqn:Hc.
  - destruct (UnlockBlock_Ref block) as [ref|] eqn:Hr;
      [|intros [= <- <-]; left; split; [discriminate|reflexivity]].
    destruct (negb (UnlockBlock_Chainable block)
              || negb (UnlockBlock_SourceAllowed block ident));
      [intros [= <- <-]; left; split; [discriminate|reflexivity]|].
    destruct (unlockedThrough svCtx ident ref) eqn:Hu; cbn [negb];
      [|intros [= <- <-]; left; split; [discriminate|reflexivity]].
    apply unlockedThrough_true in Hu.
    destruct (Output_Chain output) as [chain|];
      [|intros [= <- <-]; right; split; [reflexivity|];
        exists ident, block; repeat split; try assumption; by eapply by_chain].
    destruct chain as [id|id|id]; cbn [ChainID_Addressable ChainID_ToAddress];
      intros [= <- <-]; right; (split; [reflexivity|]);
      exists ident, block; (repeat split; try assumption).
    + by eapply (by_chain_addressable _ _ _ _ ref (AliasAddress id)).
    + by eapply (by_chain_addressable _ _ _ _ ref (NFTAddress id)).
    + by eapply by_chain.
  - destruct block as [signature|ref|ref|ref].
    + destruct (UnlockedIdents (WorkingSet svCtx) !! Address_Key ident) eqn:Hk;
        [intros [= <- <-]; left; split; [discriminate|reflexivity]|].
      destruct (Address_Unlock ident (EssenceMsgToSign (WorkingSet svCtx)) signature);
        [intros [= <- <-]; left; split; [discriminate|reflexivity]|].
      intros [= <- <-]. right. split; [reflexivity|].
      exists ident, (SignatureUnlockBlock signature). repeat split; try assumption.
      by eapply by_signature.
    + destruct (UnlockBlock_Chainable (ReferenceUnlockBlock ref)
                || negb (UnlockBlock_SourceAllowed (ReferenceUnlockBlock ref) ident));
        [intros [= <- <-]; left; split; [discriminate|reflexivity]|].
      destruct (unlockedThrough svCtx ident ref) eqn:Hu; cbn [negb];
        [|intros [= <- <-]; left; split; [discriminate|reflexivity]].
      apply unlockedThrough_true in Hu.
      intros [= <- <-]. right. split; [reflexivity|].
      exists ident, (ReferenceUnlockBlock ref). repeat split; try assumption.
      by eapply (by_reference _ _ _ _ ref).
    + cbn [UnlockBlock_Chainable orb].
      intros [= <- <-]; left; split; [discriminate|reflexivity].
    + cbn [UnlockBlock_Chainable orb].
      intros [= <- <-]; left; split; [discriminate|reflexivity].
Qed.

End UnlockInvariants.

Section UnlockedIdentities.
Context `{Capabilities}.

Lemma unlockOutput_frame svCtx output inputIndex r svCtx' :
  unlockOutput svCtx output inputIndex = (r, svCtx') ->
  (r <> Ok tt -> svCtx' = svCtx) /\
  svCtx' = with_UnlockedIdents (UnlockedIdents (WorkingSet svCtx')) svCtx /\
  (forall k, is_Some (UnlockedIdents (WorkingSet svCtx) !! k) ->
             is_Some (UnlockedIdents (WorkingSet svCtx') !! k)).
Proof.
  intros Hu. destruct (unlockOutput_inv _ _ _ _ _ Hu) as [[Hr ->]|[-> Hok]].
  - split; [reflexivity|]. split; [symmetry; apply with_UnlockedIdents_same|auto].
  - split; [intros Hn; contradiction|].
    destruct Hok as (ident & block & _ & _ & Hby).
    destruct Hby; (split; [try reflexivity; symmetry; apply with_UnlockedIdents_same|]);
      intros k Hk; try exact Hk;
      cbn [with_UnlockedIdents WorkingSet UnlockedIdents];
      rewrite lookup_insert; case_decide; eauto.
Qed.

(** The loop over the inputs, with an invariant of the unlocked
    identities and a fact established for every input. *)
Lemma inputUnlocksFrom_invariant (svCtx0 : SemanticValidationContext)
    (I : nat -> gmap (Z * Z) Z -> Prop) (Q : nat -> Output -> Prop) :
  (forall u output i svCtx',
     I i u ->
     unlockOutput (with_UnlockedIdents u svCtx0) output i = (Ok tt, svCtx') ->
     I (S i) (UnlockedIdents (WorkingSet svCtx')) /\ Q i output) ->
  forall inputs start u svCtx',
    I start u ->
    inputUnlocksFrom (with_UnlockedIdents u svCtx0) start inputs = (Ok tt, svCtx') ->
    exists u',
      svCtx' = with_UnlockedIdents u' svCtx0 /\
      I (start + length inputs)%nat u' /\
      forall (j : nat) inputRef,
        (inputs : list Input) !! j = Some inputRef ->
        exists input,
          InputSet (WorkingSet svCtx0) !! Input_Ref inputRef = Some input /\
          Q (start + j)%nat input.
Proof.
  intros Hstep. induction inputs as [|inputRef rest IH]; intros start u svCtx' HI Hrun.
  - simpl in Hrun. injection Hrun as <-. exists u. rewrite Nat.add_0_r.
    split; [reflexivity|]. split; [exact HI|]. intros j r Hj. discriminate.
  - cbn [inputUnlocksFrom] in Hrun.
    change (InputSet (WorkingSet (with_UnlockedIdents u svCtx0)))
      with (InputSet (WorkingSet svCtx0)) in Hrun.
    destruct (InputSet (WorkingSet svCtx0) !! Input_Ref inputRef) as [input|] eqn:Hin;
      [|discriminate].
    destruct (unlockOutput (with_UnlockedIdents u svCtx0) input start)
      as [[[]| |] svCtx1] eqn:Hu; try discriminate.
    destruct (Hstep u input start svCtx1 HI Hu) as [HI1 HQ].
    destruct (unlockOutput_frame _ _ _ _ _ Hu) as (_ & Hframe & _).
    change (with_UnlockedIdents (UnlockedIdents (WorkingSet svCtx1))
              (with_UnlockedIdents u svCtx0))
      with (with_UnlockedIdents (UnlockedIdents (WorkingSet svCtx1)) svCtx0) in Hframe.
    rewrite Hframe in Hrun.
    destruct (IH (S start) _ svCtx' HI1 Hrun) as (u' & Hc & HI' & Hall).
    exists u'. split; [exact Hc|]. split.
    + cbn [length]. rewrite Nat.add_succ_r. exact HI'.
    + intros [|j] r Hj.
      * injection Hj as <-. exists input. rewrite Nat.add_0_r. auto.
      * rewrite Nat.add_succ_r. apply (Hall j r Hj).
Qed.

(** X6: the InputUnlocks step changes nothing of the context but the
    unlocked identities, also when it fails, and it never removes an
    identity that is unlocked. *)
Theorem TxSemanticInputUnlocks_frame (svCtx : SemanticValidationContext)
    (r : result unit) (svCtx' : SemanticValidationContext) :
  TxSemanticInputUnlocks svCtx = (r, svCtx') ->
  svCtx' = with_UnlockedIdents (UnlockedIdents (WorkingSet svCtx')) svCtx /\
  (forall k, is_Some (UnlockedIdents (WorkingSet svCtx) !! k) ->
             is_Some (UnlockedIdents (WorkingSet svCtx') !! k)).
Proof.
  unfold TxSemanticInputUnlocks.
  destruct (Transaction_essence (Tx (WorkingSet svCtx))) as [essence| |];
    [|intros [= <- <-]; split; [symmetry; apply with_UnlockedIdents_same|auto]..].
  generalize 0%nat as start. generalize (Inputs essence) as inputs.
  intros inputs. revert svCtx r svCtx'.
  induction inputs as [|inputRef rest IH]; intros svCtx r svCtx' start Hrun.
  - injection Hrun as <- <-. split; [symmetry; apply with_UnlockedIdents_same|auto].
  - cbn [inputUnlocksFrom] in Hrun.
    destruct (InputSet (WorkingSet svCtx) !! Input_Ref inputRef) as [input|];
      [|injection Hrun as <- <-; split; [symmetry; apply with_UnlockedIdents_same|auto]].
    destruct (unlockOutput svCtx input start) as [r1 svCtx1] eqn:Hu.
    destruct (unlockOutput_frame _ _ _ _ _ Hu) as (Hfail & Hframe & Hmono).
    destruct r1 as [[]| |].
    + destruct (IH _ _ _ _ Hrun) as [Hf' Hm']. split.
      * rewrite Hf' at 1. rewrite Hframe. reflexivity.
      * intros k Hk. apply Hm', Hmono, Hk.
    + injection Hrun as <- <-. split; [exact Hframe|exact Hmono].
    + injection Hrun as <- <-. split; [exact Hframe|exact Hmono].
Qed.

End UnlockedIdentities.

Section ChainConstrainedTargets.
Context `{Capabilities}.

(** No alias or NFT address among the unlocked identities. *)
Definition noChainKeys (u : gmap (Z * Z) Z) : Prop :=
  forall a, isChainConstrainedAddress a = true -> u !! Address_Key a = None.

Lemma unlockOutput_noChainKeys svCtx output inputIndex svCtx' :
  noChainKeys (UnlockedIdents (WorkingSet svCtx)) ->
  unlockOutput svCtx output inputIndex = (Ok tt, svCtx') ->
  noChainKeys (UnlockedIdents (WorkingSet svCtx')) /\
  exists ident,
    targetIdentOf svCtx output inputIndex = Ok ident /\
    isChainConstrainedAddress ident = false.
Proof.
  intros Hno Hu. destruct (unlockOutput_inv _ _ _ _ _ Hu) as [[Hr _]|[_ Hok]];
    [contradiction|].
  destruct Hok as (ident & block & Ht & _ & Hby).
  destruct Hby as [ref Hc _ Hk|ref address Hc _ Hk _|signature Hc _ Hk|ref Hc _ Hk].
  - rewrite (Hno ident Hc) in Hk. discriminate.
  - rewrite (Hno ident Hc) in Hk. discriminate.
  - split; [|eauto]. intros a Ha.
    cbn [with_UnlockedIdents WorkingSet UnlockedIdents].
    rewrite lookup_insert_ne by (by apply Address_Key_chain). by apply Hno.
  - split; [exact Hno|eauto].
Qed.

(** X7: the source enters the address of a chain into the unlocked
    identities only in the branch of a chain constrained target, which
    itself requires such an address to be unlocked already.  So from
    unlocked identities without alias and NFT addresses, as the working
    set starts, the InputUnlocks step passes only if every input has its
    UTXO in the input set and a target identity that is directly
    unlockable; an input whose target is an alias or NFT address is never
    unlocked, and no alias or NFT address is ever entered. *)
Theorem TxSemanticInputUnlocks_no_chain_target (svCtx svCtx' : SemanticValidationContext)
    (essence : TransactionEssence) :
  Essence (Tx (WorkingSet svCtx)) = Some essence ->
  noChainKeys (UnlockedIdents (WorkingSet svCtx)) ->
  TxSemanticInputUnlocks svCtx = (Ok tt, svCtx') ->
  noChainKeys (UnlockedIdents (WorkingSet svCtx')) /\
  forall (j : nat) inputRef,
    (Inputs essence : list Input) !! j = Some inputRef ->
    exists input ident,
      InputSet (WorkingSet svCtx) !! Input_Ref inputRef = Some input /\
      targetIdentOf svCtx input j = Ok ident /\
      isChainConstrainedAddress ident = false.
Proof.
  intros He Hno. unfold TxSemanticInputUnlocks, Transaction_essence. rewrite He.
  rewrite <- (with_UnlockedIdents_same svCtx) at 1. intros Hrun.
  assert (forall u output i c',
            noChainKeys u ->
            unlockOutput (with_UnlockedIdents u svCtx) output i = (Ok tt, c') ->
            noChainKeys (UnlockedIdents (WorkingSet c')) /\
            exists ident,
              targetIdentOf svCtx output i = Ok ident /\
              isChainConstrainedAddress ident = false) as Hstep.
  { intros u output i c' HI Hu.
    exact (unlockOutput_noChainKeys (with_UnlockedIdents u svCtx) output i c' HI Hu). }
  destruct (inputUnlocksFrom_invariant svCtx
              (fun _ u => noChainKeys u)
              (fun i input => exists ident,
                   targetIdentOf svCtx input i = Ok ident /\
                   isChainConstrainedAddress ident = false)
              Hstep _ _ _ _ Hno Hrun) as (u' & -> & Hno' & Hall).
  split; [exact Hno'|].
  intros j inputRef Hj. destruct (Hall j inputRef Hj) as (input & Hin & ident & Ht & Hc).
  exists input, ident. auto.
Qed.

(** Every unlocked identity was unlocked at an index below [n]. *)
Definition unlockedBelow (n : nat) (u : gmap (Z * Z) Z) : Prop :=
  forall k v, u !! k = Some v -> 0 <= v < Z.of_nat n.

Lemma unlockOutput_unlockedBelow svCtx output inputIndex svCtx' :
  Z.of_nat inputIndex < 65536 ->
  unlockedBelow inputIndex (UnlockedIdents (WorkingSet svCtx)) ->
  unlockOutput svCtx output inputIndex = (Ok tt, svCtx') ->
  unlockedBelow (S inputIndex) (UnlockedIdents (WorkingSet svCtx')) /\
  exists block,
    (UnlockBlocks (Tx (WorkingSet svCtx)) : list UnlockBlock) !! inputIndex = Some block /\
    forall ref, UnlockBlock_Ref block = Some ref -> 0 <= ref < Z.of_nat inputIndex.
Proof.
  intros Hlt Hbelow Hu.
  destruct (unlockOutput_inv _ _ _ _ _ Hu) as [[Hr _]|[_ Hok]]; [contradiction|].
  destruct Hok as (ident & block & _ & Hb & Hby).
  assert (unlockedBelow (S inputIndex) (UnlockedIdents (WorkingSet svCtx))) as Hweak.
  { intros k v Hk. specialize (Hbelow k v Hk). lia. }
  assert (forall k, unlockedBelow (S inputIndex)
                      (<[k := u16 (Z.of_nat inputIndex)]> (UnlockedIdents (WorkingSet svCtx))))
    as Hins.
  { intros k k' v. rewrite lookup_insert. case_decide.
    - intros [= <-]. unfold u16. rewrite Z.mod_small; lia.
    - apply Hweak. }
  destruct Hby as [ref Hc Hr Hk|ref address Hc Hr Hk _|signature Hc -> Hk|ref Hc Hr Hk].
  - split; [exact Hweak|]. exists block. split; [exact Hb|].
    intros ref' Hr'. rewrite Hr in Hr'. injection Hr' as <-. exact (Hbelow _ _ Hk).
  - split; [apply Hins|]. exists block. split; [exact Hb|].
    intros ref' Hr'. rewrite Hr in Hr'. injection Hr' as <-. exact (Hbelow _ _ Hk).
  - split; [apply Hins|]. exists (SignatureUnlockBlock signature). split; [exact Hb|].
    intros ref' Hr'. discriminate.
  - split; [exact Hweak|]. exists block. split; [exact Hb|].
    intros ref' Hr'. rewrite Hr in Hr'. injection Hr' as <-. exact (Hbelow _ _ Hk).
Qed.

(** X8: when the InputUnlocks step passes from empty unlocked identities,
    every input has its unlock block, every referential unlock block
    refers to an index strictly below its own, and every identity is
    recorded with the index of an input of the transaction. *)
Theorem TxSemanticInputUnlocks_references_backward (svCtx svCtx' : SemanticValidationContext)
    (essence : TransactionEssence) :
  Essence (Tx (WorkingSet svCtx)) = Some essence ->
  UnlockedIdents (WorkingSet svCtx) = ∅ ->
  Z.of_nat (length (Inputs essence)) <= 65536 ->
  TxSemanticInputUnlocks svCtx = (Ok tt, svCtx') ->
  (forall (j : nat), (j < length (Inputs essence))%nat ->
     exists block,
       (UnlockBlocks (Tx (WorkingSet svCtx)) : list UnlockBlock) !! j = Some block /\
       forall ref, UnlockBlock_Ref block = Some ref -> 0 <= ref < Z.of_nat j) /\
  (forall k v, UnlockedIdents (WorkingSet svCtx') !! k = Some v ->
     0 <= v < Z.of_nat (length (Inputs essence))).
Proof.
  intros He Hempty Hlen. unfold TxSemanticInputUnlocks, Transaction_essence. rewrite He.
  rewrite <- (with_UnlockedIdents_same svCtx) at 1. intros Hrun.
  assert (forall u output i c',
            (Z.of_nat i <= 65536 -> unlockedBelow i u) ->
            unlockOutput (with_UnlockedIdents u svCtx) output i = (Ok tt, c') ->
            (Z.of_nat (S i) <= 65536 -> unlockedBelow (S i) (UnlockedIdents (WorkingSet c'))) /\
            (Z.of_nat (S i) <= 65536 ->
             exists block,
               (UnlockBlocks (Tx (WorkingSet svCtx)) : list UnlockBlock) !! i = Some block /\
               forall ref, UnlockBlock_Ref block = Some ref -> 0 <= ref < Z.of_nat i))
    as Hstep.
  { intros u output i c' HI Hu.
    split; intros Hi;
      destruct (unlockOutput_unlockedBelow (with_UnlockedIdents u svCtx) output i c'
                  ltac:(lia) (HI ltac:(lia)) Hu) as [Hb Hblock]; assumption. }
  assert (Z.of_nat 0 <= 65536 -> unlockedBelow 0 (UnlockedIdents (WorkingSet svCtx))) as H0.
  { intros _ k v Hk. rewrite Hempty, lookup_empty in Hk. discriminate. }
  destruct (inputUnlocksFrom_invariant svCtx
              (fun i u => Z.of_nat i <= 65536 -> unlockedBelow i u)
              (fun i _ =>
                 Z.of_nat (S i) <= 65536 ->
                 exists block,
                   (UnlockBlocks (Tx (WorkingSet svCtx)) : list UnlockBlock) !! i
                     = Some block /\
                   forall ref, UnlockBlock_Ref block = Some ref -> 0 <= ref < Z.of_nat i)
              Hstep _ _ _ _ H0 Hrun) as (u' & -> & Hbelow & Hall).
  split.
  - intros j Hj. destruct (lookup_lt_is_Some_2 (Inputs essence) j Hj) as [inputRef Hin].
    destruct (Hall j inputRef Hin) as (input & _ & HQ). apply HQ. simpl. lia.
  - intros k v Hk. apply (Hbelow Hlen k v Hk).
Qed.

End ChainConstrainedTargets.

(** *** Two inputs of one owner: a signature and a reference to it *)

Definition signedInputs : gmap (Z * Z) Output :=
  {[ (1, 0) := OSimple (mkSimpleOutput (Ed25519Address 11) 600000);
     (1, 1) := OSimple (mkSimpleOutput (Ed25519Address 11) 400000) ]}.

Definition signedEssence : TransactionEssence :=
  mkTransactionEssence [UTXOInput 1 0; UTXOInput 1 1] transferOutputs None.

Definition signedTransaction : Transaction :=
  mkTransaction (Some signedEssence)
    [SignatureUnlockBlock (mkSignature 11 42); ReferenceUnlockBlock 0].

Definition signedCtx : SemanticValidationContext :=
  mkSemanticValidationContext 10 1700000000
    (mkWorkingSet ∅ signedInputs signedTransaction 42 ∅ ∅ ∅ ∅ ∅ ∅).

Definition signedCtx' : SemanticValidationContext :=
  with_UnlockedIdents {[ Address_Key (Ed25519Address 11) := 0 ]} signedCtx.

Example signedCtx_unlocks :
  @TxSemanticInputUnlocks exampleCapabilities signedCtx = (Ok tt, signedCtx').
Proof. vm_compute. reflexivity. Qed.

Lemma TxSemanticInputUnlocks_frame_witness :
  signedCtx' = with_UnlockedIdents (UnlockedIdents (WorkingSet signedCtx')) signedCtx.
Proof.
  exact (proj1 (@TxSemanticInputUnlocks_frame exampleCapabilities signedCtx (Ok tt)
                  signedCtx' eq_refl)).
Defined.

Lemma TxSemanticInputUnlocks_no_chain_target_witness :
  exists input ident,
    InputSet (WorkingSet signedCtx) !! Input_Ref (UTXOInput 1 1) = Some input /\
    @targetIdentOf exampleCapabilities signedCtx input 1 = Ok ident /\
    isChainConstrainedAddress ident = false.
Proof.
  refine (proj2 (@TxSemanticInputUnlocks_no_chain_target exampleCapabilities signedCtx
                   signedCtx' signedEssence eq_refl _ eq_refl) 1%nat (UTXOInput 1 1) eq_refl).
  intros a _. apply lookup_empty.
Defined.

Lemma TxSemanticInputUnlocks_references_backward_witness :
  exists block,
    (UnlockBlocks (Tx (WorkingSet signedCtx)) : list UnlockBlock) !! 1%nat = Some block /\
    forall ref, UnlockBlock_Ref block = Some ref -> 0 <= ref < Z.of_nat 1.
Proof.
  refine (proj1 (@TxSemanticInputUnlocks_references_backward exampleCapabilities signedCtx
                   signedCtx' signedEssence eq_refl eq_refl _ eq_refl) 1%nat _).
  - simpl. lia.
  - simpl. lia.
Defined.

(** An input owned by an alias address, with the alias unlock block the
    specification describes for it, is rejected. *)
Example alias_owned_input_rejected :
  fst (@TxSemanticInputUnlocks exampleCapabilities
         (mkSemanticValidationContext 10 1700000000
            (mkWorkingSet ∅
               {[ (1, 0) := OAlias (mkAliasOutput 500000 [] 5 (Ed25519Address 11)
                                      (Ed25519Address 11) 3 0 []);
                  (1, 1) := OSimple (mkSimpleOutput (AliasAddress 5) 500000) ]}
               (mkTransaction
                  (Some (mkTransactionEssence [UTXOInput 1 0; UTXOInput 1 1]
                           transferOutputs None))
                  [SignatureUnlockBlock (mkSignature 11 42); AliasUnlockBlock 0])
               42 ∅ ∅ ∅ ∅
               {[ ChainAlias 5 := OAlias (mkAliasOutput 500000 [] 5 (Ed25519Address 11)
                                            (Ed25519Address 11) 4 0 []) ]}
               ∅)))
  = Err ErrInvalidInputUnlock.
Proof. vm_compute. reflexivity. Qed.

(** ** The output set of a transaction *)

Lemma outputsSetFrom_lookup (txID : Z) (outputs : list Output) :
  forall (start : nat) (set : gmap (Z * Z) Output),
    Z.of_nat start + Z.of_nat (length outputs) <= 65536 ->
    (forall (j : nat),
       outputsSetFrom txID start outputs set !! (txID, Z.of_nat j) =
         if decide (start <= j < start + length outputs)%nat
         then outputs !! (j - start)%nat
         else set !! (txID, Z.of_nat j)) /\
    (forall id idx,
       (id <> txID \/ idx < 0 \/ 65536 <= idx) ->
       outputsSetFrom txID start outputs set !! (id, idx) = set !! (id, idx)).
Proof.
  induction outputs as [|output rest IH]; intros start set Hlen.
  - split; [|reflexivity]. intros j. simpl. case_decide; [lia|reflexivity].
  - cbn [outputsSetFrom length] in *.
    destruct (IH (S start) (<[(txID, u16 (Z.of_nat start)) := output]> set)) as [Hin Hout];
      [lia|].
    assert (u16 (Z.of_nat start) = Z.of_nat start) as Hu.
    { unfold u16. apply Z.mod_small. lia. }
    split.
    + intros j. rewrite Hin. rewrite Hu.
      destruct (decide (S start <= j < S start + length rest)%nat) as [Hj|Hj].
      * rewrite decide_True by lia.
        replace (j - start)%nat with (S (j - S start)) by lia. reflexivity.
      * destruct (decide (j = start)) as [->|Hne].
        -- rewrite lookup_insert_eq, decide_True by lia.
           rewrite Nat.sub_diag. reflexivity.
        -- rewrite lookup_insert_ne by (intros [= Heq]; lia).
           rewrite decide_False by lia. reflexivity.
    + intros id idx Hcase. rewrite Hout by exact Hcase.
      rewrite Hu. apply lookup_insert_ne. intros [= -> <-]. lia.
Qed.

Section OutputsSetProperties.
Context `{Capabilities} `{ElementCodec}.

(** X9: for a transaction with an id and at most 65536 outputs, the
    output set maps the output id formed from the transaction id and the
    index [j] to the [j]-th output of the essence, and holds nothing
    else. *)
Theorem Transaction_OutputsSet_lookup (t : Transaction) (essence : TransactionEssence)
    (txID : Z) :
  Essence t = Some essence ->
  Transaction_ID t = Ok txID ->
  Z.of_nat (length (Outputs essence)) <= 65536 ->
  exists set,
    Transaction_OutputsSet t = Ok set /\
    (forall (j : nat), set !! (txID, Z.of_nat j) = Outputs essence !! j) /\
    (forall id idx output,
       set !! (id, idx) = Some output ->
       id = txID /\ exists (j : nat), idx = Z.of_nat j /\ Outputs essence !! j = Some output).
Proof.
  intros He Hid Hlen.
  destruct (outputsSetFrom_lookup txID (Outputs essence) 0 ∅ ltac:(simpl; lia))
    as [Hin Hout].
  exists (outputsSetFrom txID 0 (Outputs essence) ∅).
  split; [|split].
  - unfold Transaction_OutputsSet, Transaction_essence. rewrite Hid, He. reflexivity.
  - intros j. rewrite Hin. case_decide as Hj.
    + rewrite Nat.sub_0_r. reflexivity.
    + rewrite lookup_empty. symmetry. apply lookup_ge_None. lia.
  - intros id idx output Hl.
    destruct (decide (id = txID)) as [->|Hne];
      [|rewrite Hout, lookup_empty in Hl by auto; discriminate].
    destruct (decide (0 <= idx < 65536)) as [Hr|Hr];
      [|rewrite Hout, lookup_empty in Hl by lia; discriminate].
    split; [reflexivity|]. exists (Z.to_nat idx).
    assert (idx = Z.of_nat (Z.to_nat idx)) as Hidx by lia.
    split; [exact Hidx|]. rewrite Hidx, Hin in Hl.
    case_decide as Hj; [|rewrite lookup_empty in Hl; discriminate].
    rewrite Nat.sub_0_r in Hl. exact Hl.
Qed.

End OutputsSetProperties.

Lemma Transaction_OutputsSet_lookup_witness :
  exists set,
    @Transaction_OutputsSet exampleCapabilities exampleCodec emptyTransaction = Ok set /\
    set !! (258, 5) = Some (OSimple (mkSimpleOutput (Ed25519Address 5) 1)).
Proof.
  destruct (@Transaction_OutputsSet_lookup exampleCapabilities exampleCodec
              emptyTransaction emptyEssence 258 eq_refl)
    as (set & Hset & Hin & _).
  - vm_compute. reflexivity.
  - vm_compute. discriminate.
  - exists set. split; [exact Hset|]. exact (Hin 5%nat).
Defined.

(** ** Serialization with and without validation *)

Section SerializationProperties.
Context `{Capabilities} `{ElementCodec}.

Lemma WithValidation_Ok deSeriMode validate s data :
  HasMode deSeriMode DeSeriModePerformValidation = true ->
  WithValidation deSeriMode validate s = Ok data ->
  s = Ok data /\ validate data = Ok tt.
Proof.
  intros Hm. unfold WithValidation. rewrite Hm.
  destruct s as [buf| |]; cbn [mbind result_bind rbind]; [|discriminate..].
  destruct (validate buf) as [[]| |] eqn:Hv; cbn [mbind result_bind rbind];
    [|discriminate..].
  intros [= <-]. split; [reflexivity|exact Hv].
Qed.

(** X10: in validation mode [Transaction.Serialize] needs the
    deserialization parameters: with a nil context it never returns
    bytes, whatever the transaction. *)
Theorem Transaction_Serialize_needs_parameters (t : Transaction) (deSeriMode : Z)
    (data : list Z) :
  HasMode deSeriMode DeSeriModePerformValidation = true ->
  Transaction_Serialize t deSeriMode None <> Ok data.
Proof.
  intros Hm Hs. unfold Transaction_Serialize in Hs.
  destruct (Transaction_essence t) as [essence| |]; cbn [mbind result_bind rbind] in Hs;
    try discriminate.
  apply (WithValidation_Ok _ _ _ _ Hm) in Hs as [_ Hv]. discriminate.
Qed.

(** The bytes [WritePayload] appends. *)
Definition payloadBytes (deSeriMode : Z) (payload : option Payload) : result (list Z) :=
  match payload with
  | None => Ok (le_bytes 4 0)
  | Some p =>
      b ← Payload_Serialize deSeriMode p;
      Ok (le_bytes 4 (Z.of_nat (length b)) ++ b)
  end.



End SerializationProperties.

Lemma Transaction_Serialize_needs_parameters_witness :
  @Transaction_Serialize exampleCapabilities exampleCodec signedTransaction
     DeSeriModePerformValidation None <> Ok [].
Proof.
  exact (@Transaction_Serialize_needs_parameters exampleCapabilities exampleCodec
           signedTransaction DeSeriModePerformValidation [] eq_refl).
Defined.



(** ** The signing message *)

Section SigningMessageProperties.
Context `{Capabilities} `{ElementCodec}.

Lemma WriteSliceOfObjects_Ok_inv {A : Type} (ser : Z -> A -> result (list Z))
    (seris : list A) (deSeriMode : Z) (rules : option ArrayRules)
    (s : result (list Z)) (out : list Z) :
  WriteSliceOfObjects ser seris deSeriMode rules s = Ok out ->
  exists buf data,
    s = Ok buf /\
    serializeAll (ser deSeriMode) seris = Ok data /\
    (HasMode deSeriMode DeSeriModePerformValidation = true ->
     forall r, rules = Some r ->
               CheckBounds r (Z.of_nat (length data)) = Ok tt /\
               (ar_NoDuplicates r = true -> NoDup data)).
Proof.
  unfold WriteSliceOfObjects. destruct s as [buf| |]; cbn [mbind result_bind rbind];
    [|discriminate..].
  destruct (serializeAll (ser deSeriMode) seris) as [data| |];
    cbn [mbind result_bind rbind]; [|discriminate..].
  intros Hout. exists buf, data. split; [reflexivity|]. split; [reflexivity|].
  intros Hm r ->. rewrite Hm in Hout.
  destruct (CheckBounds r (Z.of_nat (length data))) as [[]| |];
    cbn [mbind result_bind rbind] in Hout; [|discriminate..].
  split; [reflexivity|]. intros Hd. rewrite Hd in Hout. unfold checkUnique in Hout.
  case_decide; [assumption|discriminate].
Qed.

Lemma WritePayload_Ok_inv payload deSeriMode s out :
  WritePayload payload deSeriMode s = Ok out -> exists buf, s = Ok buf.
Proof.
  unfold WritePayload. destruct s as [buf| |]; cbn [mbind result_bind rbind];
    [eauto|discriminate..].
Qed.

Lemma TransactionEssence_Serialize_validated (u : TransactionEssence) (deSeriMode : Z)
    (bytes : list Z) :
  HasMode deSeriMode DeSeriModePerformValidation = true ->
  TransactionEssence_Serialize u deSeriMode = Ok bytes ->
  SyntacticallyValidate u = Ok tt /\
  (forall p, Payload_ u = Some p -> isIndexation p = true) /\
  exists data,
    serializeAll (Input_Serialize deSeriMode) (Inputs u) = Ok data /\ NoDup data.
Proof.
  intros Hm. unfold TransactionEssence_Serialize. rewrite Hm. cbn [andb].
  destruct (negb (default true (isIndexation <$> Payload_ u))) eqn:Hp; [discriminate|].
  change (ar_NoDuplicates inputsArrayBound) with true. cbn iota.
  intros Hs.
  apply WritePayload_Ok_inv in Hs as [b1 Hs].
  apply WriteSliceOfObjects_Ok_inv in Hs as (b2 & _ & Hs & _ & _).
  apply WriteSliceOfObjects_Ok_inv in Hs as (b3 & data & Hs & Hdata & Hrules).
  destruct (Hrules Hm _ eq_refl) as [_ Hnd].
  split; [|split].
  - destruct (SyntacticallyValidate u) as [[]| |]; [reflexivity|discriminate..].
  - intros p Hpay. rewrite Hpay in Hp. simpl in Hp. by apply negb_false_iff in Hp.
  - exists data. split; [exact Hdata|]. apply Hnd. reflexivity.
Qed.

(** X12: the signing message exists only for an essence that passes
    [SyntacticallyValidate], whose payload, if any, is an indexation
    payload and whose inputs have pairwise different encodings; it is the
    hash of the bytes of the essence serialized with validation and
    lexical ordering. *)
Theorem SigningMessage_validates (u : TransactionEssence) (msg : Z) :
  SigningMessage u = Ok msg ->
  SyntacticallyValidate u = Ok tt /\
  (forall p, Payload_ u = Some p -> isIndexation p = true) /\
  (exists data,
     serializeAll
       (Input_Serialize (Z.lor DeSeriModePerformValidation DeSeriModePerformLexicalOrdering))
       (Inputs u) = Ok data /\ NoDup data) /\
  exists bytes,
    TransactionEssence_Serialize u
      (Z.lor DeSeriModePerformValidation DeSeriModePerformLexicalOrdering) = Ok bytes /\
    msg = blake2b_Sum256 bytes.
Proof.
  unfold SigningMessage.
  destruct (TransactionEssence_Serialize u _) as [bytes| |] eqn:Hs;
    cbn [mbind result_bind rbind]; [|discriminate..].
  intros [= <-].
  destruct (TransactionEssence_Serialize_validated u
              (Z.lor DeSeriModePerformValidation DeSeriModePerformLexicalOrdering)
              bytes eq_refl Hs) as (Hv & Hp & Hd).
  repeat split; try assumption. exists bytes. auto.
Qed.

End SigningMessageProperties.

Example SigningMessage_empty_essence :
  @SigningMessage exampleCapabilities exampleCodec emptyEssence = Err ErrMinInputsNotReached.
Proof. vm_compute. reflexivity. Qed.

Lemma SigningMessage_validates_witness :
  SyntacticallyValidate signedEssence = Ok tt.
Proof.
  refine (proj1 (@SigningMessage_validates exampleCapabilities exampleCodec
                   signedEssence 151 _)).
  vm_compute. reflexivity.
Defined.

(** ** What a semantically valid transaction satisfies *)

Lemma depositInput_fst input st st' :
  depositInput input st = Ok st' ->
  fst st' = u64_add (fst st) (Output_Deposit input).
Proof.
  unfold depositInput.
  destruct (Output_FeatureBlocks input) as [blocks|]; [|intros [= <-]; reflexivity].
  destruct (FeatureBlocks_Set blocks) as [set| |]; cbn [mbind result_bind rbind];
    [|discriminate..].
  destruct (set !! FeatureBlockDustDepositReturn) as [ret|]; [|intros [= <-]; reflexivity].
  destruct (set !! FeatureBlockSender) as [[]|]; try discriminate.
  destruct ret; try discriminate. intros [= <-]. reflexivity.
Qed.

Lemma depositInputs_fst entries :
  forall st st',
    u64 (fst st) = fst st ->
    depositInputs entries st = Ok st' ->
    fst st' = u64 (fst st + sumZ (map (fun e => Output_Deposit (snd e)) entries)).
Proof.
  induction entries as [|[id input] rest IH]; intros st st' Hst; simpl.
  - intros [= <-]. rewrite Z.add_0_r, Hst. reflexivity.
  - destruct (depositInput input st) as [st1| |] eqn:H1; try discriminate.
    apply depositInput_fst in H1. intros Hrest.
    rewrite (IH st1 st') by (rewrite ?H1; unfold u64_add; auto using u64_idemp).
    rewrite H1. unfold u64_add. rewrite u64_add_l. f_equal. lia.
Qed.

Lemma TxSemanticDeposit_Ok svCtx :
  TxSemanticDeposit svCtx = Ok tt ->
  exists essence,
    Essence (Tx (WorkingSet svCtx)) = Some essence /\
    inSum (InputSet (WorkingSet svCtx)) = outSum (Outputs essence).
Proof.
  unfold TxSemanticDeposit, Transaction_essence.
  destruct (depositInputs _ _) as [ins| |] eqn:Hin; cbn [mbind result_bind rbind];
    [|discriminate..].
  destruct (Essence (Tx (WorkingSet svCtx))) as [essence|]; cbn [mbind result_bind rbind];
    [|discriminate].
  case_decide as Heq; [|discriminate]. intros _. exists essence. split; [reflexivity|].
  apply depositInputs_fst in Hin; [|reflexivity].
  destruct (depositOutputs_spec (Outputs essence) (0, ∅) eq_refl) as [Hout _].
  cbn [fst] in Hin, Hout. rewrite Z.add_0_l in Hin, Hout.
  unfold inSum, outSum, inputDeposits. rewrite <- Hin, <- Hout. exact Heq.
Qed.

Lemma TxSemanticTimelock_Ok svCtx :
  TxSemanticTimelock svCtx = Ok tt ->
  forall id input,
    InputSet (WorkingSet svCtx) !! id = Some input -> inputTimelocked svCtx input = false.
Proof.
  intros Hok id input Hl.
  destruct (inputTimelocked svCtx input) eqn:Ht; [|reflexivity].
  rewrite (TxSemanticTimelock_entry svCtx id input Hl Ht) in Hok. discriminate.
Qed.

Lemma inputTimelocked_milestones c1 c2 input :
  ConfirmingMilestoneIndex c1 = ConfirmingMilestoneIndex c2 ->
  ConfirmingMilestoneUnix c1 = ConfirmingMilestoneUnix c2 ->
  inputTimelocked c1 input = inputTimelocked c2 input.
Proof.
  intros Hi Hu. unfold inputTimelocked.
  induction (default [] (Output_FeatureBlocks input)) as [|fb l IH]; [reflexivity|].
  cbn [existsb]. rewrite IH. f_equal. destruct fb; simpl; congruence.
Qed.

(** The NativeTokens step leaves everything but the two sums as it is. *)
Lemma TxSemanticNativeTokens_frame svCtx :
  exists s1 s2,
    snd (TxSemanticNativeTokens svCtx)
    = with_OutNativeTokens s2 (with_InNativeTokens s1 svCtx).
Proof.
  unfold TxSemanticNativeTokens.
  destruct (NativeTokenOutputs_Sum
              (OutputsByType_NativeTokenOutputs (InputsByType (WorkingSet svCtx))))
    as [s| |] eqn:Hs.
  - cbn [with_InNativeTokens WorkingSet InputsByType]. rewrite Hs.
    exists s, s. destruct (_ && _); reflexivity.
  - exists ∅, (OutNativeTokens (WorkingSet svCtx)).
    destruct svCtx as [i u []]. reflexivity.
  - exists (InNativeTokens (WorkingSet svCtx)), (OutNativeTokens (WorkingSet svCtx)).
    destruct svCtx as [i u []]. reflexivity.
Qed.

Section Soundness.
Context `{Capabilities} `{ElementCodec} `{ChainCapabilities}.

Lemma inputUnlocks_Ok_facts svCtx svCtx' essence :
  Essence (Tx (WorkingSet svCtx)) = Some essence ->
  UnlockedIdents (WorkingSet svCtx) = ∅ ->
  TxSemanticInputUnlocks svCtx = (Ok tt, svCtx') ->
  (exists u', svCtx' = with_UnlockedIdents u' svCtx) /\
  forall (j : nat) inputRef,
    (Inputs essence : list Input) !! j = Some inputRef ->
    is_Some ((UnlockBlocks (Tx (WorkingSet svCtx)) : list UnlockBlock) !! j) /\
    exists input ident,
      InputSet (WorkingSet svCtx) !! Input_Ref inputRef = Some input /\
      targetIdentOf svCtx input j = Ok ident /\
      isChainConstrainedAddress ident = false.
Proof.
  intros He Hempty. unfold TxSemanticInputUnlocks, Transaction_essence. rewrite He.
  rewrite <- (with_UnlockedIdents_same svCtx) at 1. intros Hrun.
  assert (forall u output i c',
            noChainKeys u ->
            unlockOutput (with_UnlockedIdents u svCtx) output i = (Ok tt, c') ->
            noChainKeys (UnlockedIdents (WorkingSet c')) /\
            (is_Some ((UnlockBlocks (Tx (WorkingSet svCtx)) : list UnlockBlock) !! i) /\
             exists ident,
               targetIdentOf svCtx output i = Ok ident /\
               isChainConstrainedAddress ident = false)) as Hstep.
  { intros u output i c' HI Hu.
    destruct (unlockOutput_noChainKeys (with_UnlockedIdents u svCtx) output i c' HI Hu)
      as [Hno Hid].
    split; [exact Hno|]. split; [|exact Hid].
    destruct (unlockOutput_inv _ _ _ _ _ Hu) as [[Hr _]|[_ (ident & block & _ & Hb & _)]];
      [contradiction|eauto]. }
  assert (noChainKeys (UnlockedIdents (WorkingSet svCtx))) as Hno.
  { intros a _. rewrite Hempty. apply lookup_empty. }
  destruct (inputUnlocksFrom_invariant svCtx (fun _ u => noChainKeys u)
              (fun i output =>
                 is_Some ((UnlockBlocks (Tx (WorkingSet svCtx)) : list UnlockBlock) !! i) /\
                 exists ident,
                   targetIdentOf svCtx output i = Ok ident /\
                   isChainConstrainedAddress ident = false)
              Hstep _ _ _ _ Hno Hrun) as (u' & -> & _ & Hall).
  split; [eauto|]. intros j inputRef Hj.
  destruct (Hall j inputRef Hj) as (input & Hin & Hb & ident & Ht & Hc).
  split; [exact Hb|]. exists input, ident. auto.
Qed.

(** X13: a transaction that [SemanticallyValidate] accepts has an essence
    that passes [SyntacticallyValidate]; every input has its UTXO in the
    supplied input set, an unlock block, and a directly unlockable target
    identity; the deposits of all entries of the input set and of the
    outputs have the same uint64 sum; and no entry of the input set has an
    unexpired timelock under the milestone of the context. *)
Theorem SemanticallyValidate_sound (svCtx : SemanticValidationContext) (t : Transaction)
    (inputs : gmap (Z * Z) Output) (final : option SemanticValidationContext) :
  SemanticallyValidate svCtx t inputs = (Ok tt, final) ->
  exists essence,
    Essence t = Some essence /\
    SyntacticallyValidate essence = Ok tt /\
    (forall (j : nat) inputRef,
       (Inputs essence : list Input) !! j = Some inputRef ->
       is_Some ((UnlockBlocks t : list UnlockBlock) !! j) /\
       exists input, inputs !! Input_Ref inputRef = Some input) /\
    inSum inputs = outSum (Outputs essence) /\
    (forall id input, inputs !! id = Some input -> inputTimelocked svCtx input = false).
Proof.
  unfold SemanticallyValidate, NewSemValiContextWorkingSet, Transaction_essence.
  destruct (Essence t) as [essence|] eqn:He; cbn [mbind result_bind rbind];
    [|discriminate].
  destruct (SigningMessage essence) as [msg| |] eqn:Hmsg; cbn [mbind result_bind rbind];
    [|discriminate..].
  destruct (Transaction_ID t) as [txID| |]; cbn [mbind result_bind rbind];
    [|discriminate..].
  set (c0 := mkSemanticValidationContext _ _ _).
  unfold semanticChecks. cbn [runSemanticValidations readOnly].
  destruct (TxSemanticInputUnlocks c0) as [[[]| |] c1] eqn:Hunlock;
    [|intros [= ?]; discriminate..].
  destruct (inputUnlocks_Ok_facts c0 c1 essence He eq_refl Hunlock) as [[u1 ->] Hinputs].
  destruct (TxSemanticDeposit (with_UnlockedIdents u1 c0)) as [[]| |] eqn:Hdep;
    [|intros [= ?]; discriminate..].
  destruct (TxSemanticNativeTokens_frame (with_UnlockedIdents u1 c0)) as (s1 & s2 & Hnt).
  destruct (TxSemanticNativeTokens (with_UnlockedIdents u1 c0)) as [[[]| |] c2];
    [|intros [= ?]; discriminate..].
  simpl in Hnt. subst c2.
  destruct (TxSemanticTimelock _) as [[]| |] eqn:Htl; [|intros [= ?]; discriminate..].
  intros _. exists essence. split; [reflexivity|].
  split; [|split; [|split]].
  - unfold SigningMessage in Hmsg.
    destruct (TransactionEssence_Serialize essence _) as [bytes| |] eqn:Hs;
      cbn [mbind result_bind rbind] in Hmsg; [|discriminate..].
    exact (proj1 (TransactionEssence_Serialize_validated essence
                    (Z.lor DeSeriModePerformValidation DeSeriModePerformLexicalOrdering)
                    bytes eq_refl Hs)).
  - intros j inputRef Hj. destruct (Hinputs j inputRef Hj) as [Hb (input & _ & Hin & _)].
    split; [exact Hb|]. exists input. exact Hin.
  - destruct (TxSemanticDeposit_Ok _ Hdep) as (essence' & He' & Hsum).
    cbn [c0 with_UnlockedIdents WorkingSet Tx InputSet] in He', Hsum.
    rewrite He in He'. injection He' as <-. exact Hsum.
  - intros id input Hl.
    rewrite <- (TxSemanticTimelock_Ok _ Htl id input Hl).
    apply inputTimelocked_milestones; reflexivity.
Qed.

End Soundness.

(** *** A valid transaction

    Stand-ins for the chain collaborators: no chains, and transitions that
    are always valid. *)
Definition exampleChains : ChainCapabilities :=
  mkChainCapabilities (fun _ _ _ _ => None) (fun _ => ∅) (fun _ _ => ∅).

Definition validTransaction : Transaction :=
  mkTransaction (Some signedEssence)
    [SignatureUnlockBlock (mkSignature 11 151); ReferenceUnlockBlock 0].

Example validTransaction_accepted :
  fst (@SemanticallyValidate exampleCapabilities exampleCodec exampleChains
         (timelockScenario 1700000000) validTransaction signedInputs) = Ok tt.
Proof. vm_compute. reflexivity. Qed.

Example signedTransaction_rejected :
  fst (@SemanticallyValidate exampleCapabilities exampleCodec exampleChains
         (timelockScenario 1700000000) signedTransaction signedInputs)
  = Err ErrSignatureAndAddrIncompatible.
Proof. vm_compute. reflexivity. Qed.

Lemma SemanticallyValidate_sound_witness :
  SyntacticallyValidate signedEssence = Ok tt /\
  inSum signedInputs = outSum (Outputs signedEssence).
Proof.
  destruct (@SemanticallyValidate_sound exampleCapabilities exampleCodec exampleChains
              (timelockScenario 1700000000) validTransaction signedInputs
              (snd (@SemanticallyValidate exampleCapabilities exampleCodec exampleChains
                      (timelockScenario 1700000000) validTransaction signedInputs)))
    as (essence & He & Hv & _ & Hsum & _).
  - vm_compute. reflexivity.
  - injection He as <-. split; [exact Hv|exact Hsum].
Defined.

(** ** Targets without expiration, and referential unlocks *)

Section MoreUnlockProperties.
Context `{Capabilities}.

Lemma noExpiration_find blocks :
  existsb isExpiration blocks = false ->
  findBlock FeatureBlockExpirationMilestoneIndex blocks = None /\
  findBlock FeatureBlockExpirationUnix blocks = None.
Proof.
  intros Hn.
  assert (forall k fb, findBlock k blocks = Some fb -> isExpiration fb = false) as Hall.
  { intros k fb Hf. apply findBlock_type in Hf as [_ Hin].
    destruct (isExpiration fb) eqn:He; [|reflexivity].
    assert (existsb isExpiration blocks = true) as Ht; [|congruence].
    apply existsb_exists. exists fb. split; [by apply list_elem_of_In|exact He]. }
  split.
  - destruct (findBlock FeatureBlockExpirationMilestoneIndex blocks) as [fb|] eqn:Hf;
      [|reflexivity].
    pose proof (Hall _ _ Hf) as He. apply findBlock_type in Hf as [Ht _].
    destruct fb; discriminate.
  - destruct (findBlock FeatureBlockExpirationUnix blocks) as [fb|] eqn:Hf; [|reflexivity].
    pose proof (Hall _ _ Hf) as He. apply findBlock_type in Hf as [Ht _].
    destruct fb; discriminate.
Qed.

(** X14: an input without an expiration feature block keeps the identity
    it resolves to by itself, whether or not it names a sender; an input
    with an expiration feature block but without a sender feature block
    makes the resolution panic (the source relies on syntactic validation
    for the sender). *)
Theorem targetIdentOf_without_expiration (svCtx : SemanticValidationContext)
    (output : Output) (inputIndex : nat) (ident : Address) :
  uniqueKindsOutput output = true ->
  identToUnlock svCtx output inputIndex = Ok ident ->
  (existsb isExpiration (default [] (Output_FeatureBlocks output)) = false ->
     targetIdentOf svCtx output inputIndex = Ok ident) /\
  (existsb isExpiration (default [] (Output_FeatureBlocks output)) = true ->
     existsb isSender (default [] (Output_FeatureBlocks output)) = false ->
     targetIdentOf svCtx output inputIndex = Panic).
Proof.
  intros Hu Hid. unfold targetIdentOf, checkSenderFeatureBlockIdentUnlock.
  rewrite Hid. cbn [mbind result_bind rbind]. unfold uniqueKindsOutput in Hu.
  destruct (Output_FeatureBlocks output) as [blocks|]; simpl in *;
    [|split; [reflexivity|discriminate]].
  destruct (FeatureBlocks_Set_ok blocks Hu) as [set [Hok Hl]].
  rewrite Hok. cbn [mbind result_bind rbind]. rewrite !Hl. split.
  - intros Hn. destruct (noExpiration_find blocks Hn) as [-> ->]. reflexivity.
  - intros He Hs.
    assert (findBlock FeatureBlockSender blocks = None) as Hns.
    { destruct (findBlock FeatureBlockSender blocks) as [fb|] eqn:Hf; [|reflexivity].
      apply findBlock_type in Hf as [Ht Hin]. destruct fb; try discriminate.
      assert (existsb isSender blocks = true) as Hc; [|congruence].
      apply existsb_exists. eexists. split; [by apply list_elem_of_In|reflexivity]. }
    rewrite Hns.
    destruct (hasExpiration_find blocks He) as [Hx|Hx];
      destruct (findBlock FeatureBlockExpirationMilestoneIndex blocks),
               (findBlock FeatureBlockExpirationUnix blocks);
      try reflexivity; contradiction.
Qed.

(** X15: when the identity to unlock is a direct-unlockable address and
    its unlock block is referential, the unlock passes exactly when the
    block is a plain reference unlock block and the identity was unlocked
    at the very index it refers to; it then leaves the context as it is.
    Otherwise it fails with [ErrInvalidInputUnlock]. *)
Theorem unlockOutput_referential (svCtx : SemanticValidationContext) (output : Output)
    (inputIndex : nat) (ident : Address) (block : UnlockBlock) (ref : Z) :
  targetIdentOf svCtx output inputIndex = Ok ident ->
  isChainConstrainedAddress ident = false ->
  (UnlockBlocks (Tx (WorkingSet svCtx)) : list UnlockBlock) !! inputIndex = Some block ->
  UnlockBlock_Ref block = Some ref ->
  (block = ReferenceUnlockBlock ref /\
   UnlockedIdents (WorkingSet svCtx) !! Address_Key ident = Some ref ->
   unlockOutput svCtx output inputIndex = (Ok tt, svCtx)) /\
  (~ (block = ReferenceUnlockBlock ref /\
      UnlockedIdents (WorkingSet svCtx) !! Address_Key ident = Some ref) ->
   unlockOutput svCtx output inputIndex = (Err ErrInvalidInputUnlock, svCtx)).
Proof.
  intros Ht Hd Hb Hr. unfold unlockOutput. rewrite Ht, Hb, Hd.
  destruct ident as [h|id|id]; try discriminate.
  destruct block as [signature|r|r|r]; try discriminate;
    injection Hr as ->; cbn [UnlockBlock_Chainable UnlockBlock_SourceAllowed orb negb].
  - unfold unlockedThrough.
    destruct (UnlockedIdents (WorkingSet svCtx) !! Address_Key (Ed25519Address h))
      as [v|] eqn:Hk.
    + destruct (decide (v = ref)) as [->|Hne].
      * rewrite bool_decide_eq_true_2 by reflexivity. cbn [negb].
        split; [reflexivity|]. intros Hn. exfalso. apply Hn. auto.
      * rewrite bool_decide_eq_false_2 by exact Hne. cbn [negb].
        split; [|reflexivity]. intros [_ [= ->]]. contradiction.
    + cbn [negb]. split; [|reflexivity]. intros [_ Hd']. discriminate.
  - split; [|reflexivity]. intros [Hd' _]. discriminate.
  - split; [|reflexivity]. intros [Hd' _]. discriminate.
Qed.

End MoreUnlockProperties.

Lemma targetIdentOf_without_expiration_witness :
  @targetIdentOf exampleCapabilities (unlockCtx ∅ ∅)
     (OExtended (mkExtendedOutput (Ed25519Address 11) 1000000 []
                   [SenderFeatureBlock (Ed25519Address 21)])) 0
  = Ok (Ed25519Address 11).
Proof.
  exact (proj1 (@targetIdentOf_without_expiration exampleCapabilities (unlockCtx ∅ ∅)
                  (OExtended (mkExtendedOutput (Ed25519Address 11) 1000000 []
                                [SenderFeatureBlock (Ed25519Address 21)]))
                  0%nat (Ed25519Address 11) eq_refl eq_refl) eq_refl).
Defined.

Example targetIdentOf_expiration_without_sender :
  @targetIdentOf exampleCapabilities (unlockCtx ∅ ∅)
     (OExtended (mkExtendedOutput (Ed25519Address 11) 1000000 []
                   [ExpirationUnixFeatureBlock 5])) 0
  = Panic.
Proof. vm_compute. reflexivity. Qed.

Lemma unlockOutput_referential_witness :
  @unlockOutput exampleCapabilities signedCtx'
     (OSimple (mkSimpleOutput (Ed25519Address 11) 400000)) 1
  = (Ok tt, signedCtx').
Proof.
  refine (proj1 (@unlockOutput_referential exampleCapabilities signedCtx'
                   (OSimple (mkSimpleOutput (Ed25519Address 11) 400000)) 1%nat
                   (Ed25519Address 11) (ReferenceUnlockBlock 0) 0
                   eq_refl eq_refl eq_refl eq_refl) _).
  split; reflexivity.
Defined.

(** The out-of-order unlock of the specification: input 0 refers to
    input 1. *)
Example out_of_order_unlock :
  fst (@TxSemanticInputUnlocks exampleCapabilities
         (mkSemanticValidationContext 10 1700000000
            (mkWorkingSet ∅ signedInputs
               (mkTransaction (Some signedEssence)
                  [ReferenceUnlockBlock 1; SignatureUnlockBlock (mkSignature 11 42)])
               42 ∅ ∅ ∅ ∅ ∅ ∅)))
  = Err ErrInvalidInputUnlock.
Proof. vm_compute. reflexivity. Qed.
